(** * org-chart-maker: the indentation parser and its renderers

    A shallow embedding of [main.py].

    - Python objects live in a store ([heap]) and are referred to by
      their index, so that the aliasing between a node, its parent's
      [children] list and the parser's stack is the one the program has.
    - A [str] is a [string]: its characters are the code points below
      256, with Python's table of white space on them.  A file is the
      text [open(filename, "r")] decodes; reading it translates the
      newlines and cuts the text after every line feed.
    - [print] appends its argument to a stream of a [world]; an
      exception is a value of [exn], and [main] catches
      [FileNotFoundError] only.
    - The recursive renderers take [fuel], the depth of recursion that
      is available; running out of it is Python's [RecursionError].
    - Of the external graph library only the calls the program makes are
      kept: the node and edge statements, and the graph given to
      [render].

    The definitions come first: the program, then the notions the
    statements need (the walk of a tree in the store, the tree of names
    below a node, the layout of a tree in the store).  The theorems
    follow. *)

From Stdlib Require Import Ascii ZArith Lia.
From Stdlib Require String.
From stdpp Require Import base list strings gmap pretty.

Set Warnings "-register-all".

Local Open Scope Z_scope.
Local Open Scope nat_scope.

(** ** Text *)

Module Str.

(** [str.isspace] on the code points below 256. *)
Definition is_space (c : ascii) : bool :=
  let n := nat_of_ascii c in
  ((9 <=? n) && (n <=? 13)) || ((28 <=? n) && (n <=? 32))
  || (n =? 133) || (n =? 160).

Definition LF : ascii := ascii_of_nat 10.
Definition CR : ascii := ascii_of_nat 13.

Definition is_empty (s : string) : bool :=
  match s with EmptyString => true | String _ _ => false end.

(** [s.lstrip()] *)
Fixpoint lstrip (s : string) : string :=
  match s with
  | EmptyString => EmptyString
  | String c s' => if is_space c then lstrip s' else s
  end.

(** [s.rstrip()] *)
Fixpoint rstrip (s : string) : string :=
  match s with
  | EmptyString => EmptyString
  | String c s' =>
      let r := rstrip s' in
      if is_space c && is_empty r then EmptyString else String c r
  end.

(** [s.strip()] *)
Definition strip (s : string) : string := rstrip (lstrip s).

(** [s * n] *)
Fixpoint repeat_str (s : string) (n : nat) : string :=
  match n with
  | O => EmptyString
  | S n' => s +:+ repeat_str s n'
  end.

(** Text mode with the default [newline=None]: a carriage return,
    alone or followed by a line feed, is read as one line feed. *)
Fixpoint translate_newlines (s : string) : string :=
  match s with
  | EmptyString => EmptyString
  | String c rest =>
      if Ascii.eqb c CR then
        match rest with
        | String c' _ =>
            if Ascii.eqb c' LF then translate_newlines rest
            else String LF (translate_newlines rest)
        | EmptyString => String LF EmptyString
        end
      else String c (translate_newlines rest)
  end.

(** [for line in f]: the text cut after every line feed, the line feed
    kept; a last line without one is yielded as it is. *)
Fixpoint readlines (s : string) : list string :=
  match s with
  | EmptyString => []
  | String c rest =>
      if Ascii.eqb c LF then String c EmptyString :: readlines rest
      else match readlines rest with
           | [] => [String c EmptyString]
           | l :: ls => String c l :: ls
           end
  end.

(** What [print] writes for a sequence of calls: each argument followed
    by a line feed. *)
Definition written (out : list string) : string :=
  foldr (fun l acc => l +:+ String LF acc) EmptyString out.

(** Every character of [s] passes the test [P]. *)
Fixpoint all_chars (P : ascii -> bool) (s : string) : bool :=
  match s with
  | EmptyString => true
  | String c s' => P c && all_chars P s'
  end.

Definition not_LF (c : ascii) : bool := negb (Ascii.eqb c LF).
Definition not_CR (c : ascii) : bool := negb (Ascii.eqb c CR).

(** A line feed occurs in [s] at most as its last character. *)
Fixpoint only_final_LF (s : string) : bool :=
  match s with
  | EmptyString => true
  | String c s' => if Ascii.eqb c LF then is_empty s' else only_final_LF s'
  end.

(** [s[n:]] *)
Fixpoint sdrop (n : nat) (s : string) : string :=
  match n, s with
  | O, _ => s
  | S n', String _ s' => sdrop n' s'
  | S _, EmptyString => EmptyString
  end.

(** [s.endswith(suffix)] *)
Definition ends_with (suffix s : string) : bool :=
  String.eqb (sdrop (String.length s - String.length suffix) s) suffix.

(** A name as the parser stores it: stripped, not empty, on one line. *)
Definition clean (s : string) : Prop :=
  strip s = s /\ s <> EmptyString
  /\ all_chars not_LF s = true /\ all_chars not_CR s = true.

End Str.

Import Str.

(** ** Objects *)

(** [class OrgNode]; [children] and [parent] hold references. *)
Record OrgNode := mkOrgNode {
  name : string;
  children : list nat;
  parent : option nat
}.

Abbreviation heap := (list OrgNode).

(** The exceptions the program can meet.  [InvalidReference] stands for
    a reference that denotes no object; no state of the program has one. *)
Inductive exn :=
| FileNotFoundError
| IndexError
| RecursionError
| InvalidReference.

Definition result (A : Type) : Type := exn + A.

Definition rbind {A B} (r : result A) (k : A -> result B) : result B :=
  match r with
  | inl e => inl e
  | inr a => k a
  end.

(** [OrgNode(name)]: a new object at the end of the store. *)
Definition OrgNode_new (h : heap) (nm : string) : heap * nat :=
  (h ++ [mkOrgNode (strip nm) [] None], length h).

(** [self.add_child(child)].  A reference always denotes an object, so
    the updates are written with [alter]. *)
Definition append_child (child : nat) (nd : OrgNode) : OrgNode :=
  mkOrgNode (name nd) (children nd ++ [child]) (parent nd).

Definition set_parent (self : nat) (nd : OrgNode) : OrgNode :=
  mkOrgNode (name nd) (children nd) (Some self).

Definition add_child (h : heap) (self child : nat) : heap :=
  alter (set_parent self) child (alter (append_child child) self h).

(** ** The parser *)

Definition count_leading_spaces (line : string) : Z :=
  (Z.of_nat (String.length line) - Z.of_nat (String.length (lstrip line)))%Z.

(** [not line.strip()] *)
Definition is_blank (line : string) : bool := is_empty (strip line).

(** The stack of [(node, indent_level)]; the head of the list is the
    Python list's last element. *)
Abbreviation pstack := (list (nat * Z)).

(** [while stack and stack[-1][1] >= indent: stack.pop()] *)
Fixpoint pop_while (st : pstack) (indent : Z) : pstack :=
  match st with
  | [] => []
  | (n, i) :: rest => if (indent <=? i)%Z then pop_while rest indent else st
  end.

(** One iteration of [for line in f]. *)
Definition parse_line (line : string) (s : heap * pstack) : result (heap * pstack) :=
  let '(h, st) := s in
  if is_blank line then inr s
  else
    let indent := count_leading_spaces line in
    let '(h1, node) := OrgNode_new h (strip line) in
    let st1 := pop_while st indent in
    match st1 with
    | [] => inl IndexError
    | (par, _) :: _ => inr (add_child h1 par node, (node, indent) :: st1)
    end.

Fixpoint parse_lines (lines : list string) (s : heap * pstack) : result (heap * pstack) :=
  match lines with
  | [] => inr s
  | line :: rest => rbind (parse_line line s) (parse_lines rest)
  end.

(** The files that exist, by path, with their text. *)
Abbreviation filesystem := (gmap string string).

(** [parse_org_file(filename)]: the store after parsing and the
    reference to [root]. *)
Definition parse_org_file (fs : filesystem) (filename : string) : result (heap * nat) :=
  let '(h0, root) := OrgNode_new [] "Root" in
  let stack := [(root, (-1)%Z)] in
  match fs !! filename with
  | None => inl FileNotFoundError
  | Some text =>
      rbind (parse_lines (readlines (translate_newlines text)) (h0, stack))
            (fun s => inr (fst s, root))
  end.

(** ** Output and exceptions *)

(** The graph object of the external layout library, as this program
    uses it: the [dot.node(id, label)] calls and the [dot.edge(tail, head)]
    calls, each in the order they were made. *)
Record Digraph := mkDigraph {
  node_stmts : list (string * string);
  edge_stmts : list (string * string)
}.

(** What a run leaves behind: the arguments of the [print] calls on each
    stream and the graphs handed to [dot.render], by output path. *)
Record world := mkWorld {
  stdout : list string;
  stderr : list string;
  rendered : list (string * Digraph)
}.

Definition M (A : Type) : Type := world -> world * result A.

Definition ret {A} (a : A) : M A := fun w => (w, inr a).

Definition raise {A} (e : exn) : M A := fun w => (w, inl e).

Definition bind {A B} (m : M A) (k : A -> M B) : M B :=
  fun w =>
    match m w with
    | (w', inr a) => k a w'
    | (w', inl e) => (w', inl e)
    end.

Notation "x <- m ;; k" := (bind m (fun x => k))
  (at level 100, m at next level, right associativity).
Notation "m ;; k" := (bind m (fun _ => k))
  (at level 100, right associativity).

(** [print(s)] *)
Definition print (s : string) : M unit :=
  fun w => (mkWorld (stdout w ++ [s]) (stderr w) (rendered w), inr tt).

(** [print(s, file=sys.stderr)] *)
Definition eprint (s : string) : M unit :=
  fun w => (mkWorld (stdout w) (stderr w ++ [s]) (rendered w), inr tt).

(** [dot.render(output_file, format='svg', cleanup=True)] *)
Definition render (output_file : string) (dot : Digraph) : M unit :=
  fun w => (mkWorld (stdout w) (stderr w)
                    (rendered w ++ [(output_file +:+ ".svg", dot)]), inr tt).

Definition lift {A} (r : result A) : M A := fun w => (w, r).

(** Following a reference. *)
Definition deref (h : heap) (i : nat) : result OrgNode :=
  match h !! i with
  | Some nd => inr nd
  | None => inl InvalidReference
  end.

(** [for x in xs: body(x)] *)
Fixpoint for_each {A} (xs : list A) (body : A -> M unit) : M unit :=
  match xs with
  | [] => ret tt
  | x :: rest => body x ;; for_each rest body
  end.

(** ** The renderers *)

(** Every recursive call takes one unit of [fuel], the depth of recursion
    the interpreter allows. *)

Fixpoint print_org_chart (fuel : nat) (h : heap) (node : nat) (level : nat) : M unit :=
  match fuel with
  | O => raise RecursionError
  | S fuel' =>
      nd <- lift (deref h node) ;;
      print (repeat_str "  " level +:+ "- " +:+ name nd) ;;
      for_each (children nd) (fun child => print_org_chart fuel' h child (level + 1))
  end.

Fixpoint print_reporting_relationships (fuel : nat) (h : heap) (node : nat) : M unit :=
  match fuel with
  | O => raise RecursionError
  | S fuel' =>
      nd <- lift (deref h node) ;;
      match parent nd with
      | Some p =>
          pn <- lift (deref h p) ;;
          if negb (String.eqb (name pn) "Root")
          then print (name nd +:+ " reports to " +:+ name pn)
          else ret tt
      | None => ret tt
      end ;;
      for_each (children nd) (fun child => print_reporting_relationships fuel' h child)
  end.

Definition DQ : string := String (ascii_of_nat 34) EmptyString.
Definition TAB : string := String (ascii_of_nat 9) EmptyString.

(** [for child in node.children: f(child, current_id, counter)], the
    content of the one [counter] cell passed from call to call. *)
Fixpoint for_each_counting (xs : list nat) (c : nat) (body : nat -> nat -> M nat) : M nat :=
  match xs with
  | [] => ret c
  | x :: rest => c' <- body x c ;; for_each_counting rest c' body
  end.

(** [_print_mermaid_nodes(node, parent_id, counter)].  [counter] is [None]
    or a reference to a one-element list, given here by its content; the
    result is the content of that list when the call returns. *)
Fixpoint _print_mermaid_nodes (fuel : nat) (h : heap) (node : nat)
    (parent_id : option string) (counter : option nat) : M nat :=
  match fuel with
  | O => raise RecursionError
  | S fuel' =>
      nd <- lift (deref h node) ;;
      let c0 := match counter with None => 0 | Some c => c end in
      let current_id := "n" +:+ pretty c0 in
      let c1 := c0 + 1 in
      print (TAB +:+ current_id +:+ "[" +:+ DQ +:+ name nd +:+ DQ +:+ "]") ;;
      match parent_id with
      | Some pid => print (TAB +:+ pid +:+ " --> " +:+ current_id)
      | None => ret tt
      end ;;
      for_each_counting (children nd) c1
        (fun child c => _print_mermaid_nodes fuel' h child (Some current_id) (Some c))
  end.

Definition print_mermaid_flowchart (fuel : nat) (h : heap) (node : nat) : M unit :=
  nd <- lift (deref h node) ;;
  if String.eqb (name nd) "Root" && negb (bool_decide (children nd = [])) then
    print "```mermaid" ;;
    print "flowchart TB" ;;
    first <- lift (match children nd with [] => inl IndexError | c :: _ => inr c end) ;;
    _print_mermaid_nodes fuel h first None None ;;
    print "```"
  else ret tt.

(** [if name not in node_ids: node_ids[name] = f"node_{len(node_ids)}"]
    followed by the read of [node_ids[name]]. *)
Definition assign_id (node_ids : gmap string string) (nm : string)
    : gmap string string * string :=
  match node_ids !! nm with
  | Some id => (node_ids, id)
  | None =>
      let id := "node_" +:+ pretty (size node_ids) in
      (<[nm := id]> node_ids, id)
  end.

Definition dot_node (dot : Digraph) (id label : string) : Digraph :=
  mkDigraph (node_stmts dot ++ [(id, label)]) (edge_stmts dot).

Definition dot_edge (dot : Digraph) (tail head : string) : Digraph :=
  mkDigraph (node_stmts dot) (edge_stmts dot ++ [(tail, head)]).

Fixpoint fold_result {A S} (xs : list A) (s : S) (body : A -> S -> result S) : result S :=
  match xs with
  | [] => inr s
  | x :: rest => rbind (body x s) (fun s' => fold_result rest s' body)
  end.

(** The inner [add_nodes(node, node_ids)] of [generate_svg_chart].  The
    dictionary and the graph [dot] of the enclosing call are both updated
    in place; they are passed in and returned. *)
Fixpoint add_nodes (fuel : nat) (h : heap) (node : nat)
    (node_ids : option (gmap string string)) (dot : Digraph)
    : result (gmap string string * Digraph) :=
  match fuel with
  | O => inl RecursionError
  | S fuel' =>
      rbind (deref h node) (fun nd =>
      let ids := match node_ids with None => ∅ | Some d => d end in
      if String.eqb (name nd) "Root" then
        fold_result (children nd) (ids, dot)
          (fun child s => add_nodes fuel' h child (Some (fst s)) (snd s))
      else
        let '(ids1, current_id) := assign_id ids (name nd) in
        let dot1 := dot_node dot current_id (name nd) in
        fold_result (children nd) (ids1, dot1)
          (fun child s =>
             rbind (deref h child) (fun cd =>
             let '(ids2, child_id) := assign_id (fst s) (name cd) in
             add_nodes fuel' h child (Some ids2) (dot_edge (snd s) current_id child_id))))
  end.

Definition generate_svg_chart (fuel : nat) (h : heap) (node : nat)
    (output_file : option string) : M string :=
  let output_file := match output_file with None => "org_chart" | Some f => f end in
  let dot := mkDigraph [] [] in
  s <- lift (add_nodes fuel h node None dot) ;;
  render output_file (snd s) ;;
  ret (output_file +:+ ".svg").

(** ** The driver *)

Inductive format := Tree | Visio | Mermaid | Svg.

(** [root.children[0]] *)
Definition first_child (h : heap) (root : nat) : result nat :=
  rbind (deref h root) (fun nd =>
  match children nd with
  | [] => inl IndexError
  | c :: _ => inr c
  end).

(** [try: body except FileNotFoundError: handler] *)
Definition try_except_FileNotFoundError (body handler : M unit) : M unit :=
  fun w =>
    match body w with
    | (w', inl FileNotFoundError) => handler w'
    | r => r
    end.

(** [main()], after [parser.parse_args()] has produced [args.filename]
    ([None] when the positional argument is left out) and [args.format]. *)
Definition main (fs : filesystem) (fuel : nat)
    (arg_filename : option string) (arg_format : option format) : M unit :=
  let filename := match arg_filename with None => "org.txt" | Some f => f end in
  try_except_FileNotFoundError
    (p <- lift (parse_org_file fs filename) ;;
     let '(h, root) := p in
     match arg_format with
     | None =>
         eprint "Organization Chart" ;;
         c <- lift (first_child h root) ;;
         print_org_chart fuel h c 0 ;;
         eprint (String LF "Reporting Relationships (for Visio import)") ;;
         c <- lift (first_child h root) ;;
         print_reporting_relationships fuel h c ;;
         eprint (String LF "Mermaid Flowchart") ;;
         print_mermaid_flowchart fuel h root ;;
         eprint (String LF "Generating SVG...") ;;
         c <- lift (first_child h root) ;;
         svg_file <- generate_svg_chart fuel h c None ;;
         eprint ("SVG file generated: " +:+ svg_file)
     | Some Tree =>
         c <- lift (first_child h root) ;;
         print_org_chart fuel h c 0
     | Some Visio =>
         c <- lift (first_child h root) ;;
         print_reporting_relationships fuel h c
     | Some Mermaid =>
         print_mermaid_flowchart fuel h root
     | Some Svg =>
         c <- lift (first_child h root) ;;
         svg_file <- generate_svg_chart fuel h c None ;;
         print ("SVG file generated: " +:+ svg_file)
     end)
    (print ("Error: " +:+ filename
            +:+ " not found. Please create a text file with your organization structure.") ;;
     print "Each line should represent a resource, with indentation showing reporting relationships.").

(** ** Trees read off the store *)

(** A tree of names: what the store holds below a node, without the
    references. *)
Inductive rose := Node (label : string) (kids : list rose).

(** The nodes reachable from [i] through [children], in pre-order. *)
Fixpoint preorder (fuel : nat) (h : heap) (i : nat) : option (list nat) :=
  match fuel with
  | O => None
  | S fuel' =>
      nd ← h !! i;
      below ← mapM (preorder fuel' h) (children nd);
      Some (i :: concat below)
  end.

(** The tree of names below [i]. *)
Fixpoint subtree (fuel : nat) (h : heap) (i : nat) : option rose :=
  match fuel with
  | O => None
  | S fuel' =>
      nd ← h !! i;
      below ← mapM (subtree fuel' h) (children nd);
      Some (Node (name nd) below)
  end.

Fixpoint size (t : rose) : nat :=
  match t with
  | Node _ ks => S (foldr (fun k acc => size k + acc) 0 ks)
  end.

Definition size_forest (ks : list rose) : nat :=
  foldr (fun k acc => size k + acc) 0 ks.

Fixpoint depth (t : rose) : nat :=
  match t with
  | Node _ ks => S (foldr (fun k acc => Nat.max (depth k) acc) 0 ks)
  end.

Definition depth_forest (ks : list rose) : nat :=
  foldr (fun k acc => Nat.max (depth k) acc) 0 ks.

Fixpoint map_rose (f : string -> string) (t : rose) : rose :=
  match t with
  | Node nm ks => Node (f nm) (map (map_rose f) ks)
  end.

(** The references of the roots of a forest laid out from [j] on. *)
Fixpoint kid_ids (j : nat) (ks : list rose) : list nat :=
  match ks with
  | [] => []
  | k :: ks' => j :: kid_ids (j + size k) ks'
  end.

(** The store cells of a tree laid out in pre-order from reference [i],
    under the parent [par]. *)
Fixpoint enc (par : option nat) (i : nat) (t : rose) : heap :=
  match t with
  | Node nm ks =>
      mkOrgNode nm (kid_ids (S i) ks) par ::
      (fix go (j : nat) (ks : list rose) : heap :=
         match ks with
         | [] => []
         | k :: ks' => enc (Some i) j k ++ go (j + size k) ks'
         end) (S i) ks
  end.

Fixpoint enc_forest (par : option nat) (j : nat) (ks : list rose) : heap :=
  match ks with
  | [] => []
  | k :: ks' => enc par j k ++ enc_forest par (j + size k) ks'
  end.

(** [h] holds the tree [t] in the cells from [i] on. *)
Definition seg (h : heap) (i : nat) (par : option nat) (t : rose) : Prop :=
  exists pre post, h = pre ++ enc par i t ++ post /\ length pre = i.

Definition segs (h : heap) (j : nat) (par : option nat) (ks : list rose) : Prop :=
  exists pre post, h = pre ++ enc_forest par j ks ++ post /\ length pre = j.

(** ** The parser on trees of names *)

Fixpoint on_last {A} (f : A -> A) (l : list A) : list A :=
  match l with
  | [] => []
  | x :: l' => match l' with [] => [f x] | _ :: _ => x :: on_last f l' end
  end.

(** A new leaf under the node [d] levels down the last-child path. *)
Fixpoint add_leaf (d : nat) (nm : string) (t : rose) : rose :=
  match t with
  | Node n ks =>
      match d with
      | O => Node n (ks ++ [Node nm []])
      | S d' => Node n (on_last (add_leaf d' nm) ks)
      end
  end.

(** The references along the last-child path of a tree laid out from [i]. *)
Fixpoint spine (i : nat) (t : rose) : list nat :=
  match t with
  | Node _ ks =>
      i :: (fix go (j : nat) (ks : list rose) : list nat :=
              match ks with
              | [] => []
              | k :: ks' =>
                  match ks' with
                  | [] => spine j k
                  | _ :: _ => go (j + size k) ks'
                  end
              end) (S i) ks
  end.

Fixpoint spine_forest (j : nat) (ks : list rose) : list nat :=
  match ks with
  | [] => []
  | k :: ks' =>
      match ks' with
      | [] => spine j k
      | _ :: _ => spine_forest (j + size k) ks'
      end
  end.

(** [parse_line] on the tree the store holds. *)
Definition tree_line (line : string) (s : rose * pstack) : rose * pstack :=
  let '(t, st) := s in
  if is_blank line then s
  else
    let indent := count_leading_spaces line in
    let st1 := pop_while st indent in
    (add_leaf (length st1 - 1) (strip (strip line)) t, (size t, indent) :: st1).

Fixpoint tree_lines (lines : list string) (s : rose * pstack) : rose * pstack :=
  match lines with
  | [] => s
  | line :: rest => tree_lines rest (tree_line line s)
  end.

(** The stack holds the last-child path of the tree, deepest node first,
    above the entry of the root. *)
Definition tied (t : rose) (st : pstack) : Prop :=
  map fst st = rev (spine 0 t) /\ last st = Some (0, (-1)%Z).

(** The names in pre-order. *)
Fixpoint names (t : rose) : list string :=
  match t with
  | Node nm ks => nm :: concat (map names ks)
  end.

(** ** The text of a file and the tree parsed from it *)

(** The lines of a text, as [for line in f] yields them. *)
Definition file_lines (text : string) : list string :=
  readlines (translate_newlines text).

(** The lines that are not skipped. *)
Definition nonblank_lines (text : string) : list string :=
  List.filter (fun l => negb (is_blank l)) (file_lines text).

(** The indent the parser pairs with each node when it pushes it on the
    stack, by reference: [-1] for the root, then the leading white space
    of each line that is not skipped. *)
Definition recorded_indents (text : string) : list Z :=
  (-1)%Z :: map count_leading_spaces (nonblank_lines text).

(** The tree of names the parser builds for a text. *)
Definition parsed_tree (text : string) : rose :=
  (tree_lines (file_lines text) (Node "Root" [], [(0, (-1)%Z)])).1.

(** Every parent was pushed with a smaller indent than its child. *)
Definition indented (h : heap) (st : pstack) (inds : list Z) : Prop :=
  length inds = length h
  /\ (forall n i, (n, i) ∈ st -> inds !! n = Some i)
  /\ (forall k nd, h !! k = Some nd -> k <> 0 ->
        exists p ip ik, parent nd = Some p /\ inds !! p = Some ip
                        /\ inds !! k = Some ik /\ (ip < ik)%Z).

(** ** What the renderers print *)

(** The world after [print] was called on each of [lines]. *)
Definition emit (w : world) (lines : list string) : world :=
  mkWorld (stdout w ++ lines) (stderr w) (rendered w).

(** The indented listing of a tree of names. *)
Fixpoint listing (level : nat) (t : rose) : list string :=
  match t with
  | Node nm ks =>
      (repeat_str "  " level +:+ "- " +:+ nm) :: concat (map (listing (S level)) ks)
  end.

(** The tree [x] as a new last child of the node [d] levels down the
    last-child path. *)
Fixpoint graft (d : nat) (x : rose) (t : rose) : rose :=
  match t with
  | Node n ks =>
      match d with
      | O => Node n (ks ++ [x])
      | S d' => Node n (on_last (graft d' x) ks)
      end
  end.

(** A stack whose indents are -1, 0, 2, ..., 2(m-1) from the bottom up. *)
Definition ladder (m : nat) (st : pstack) : Prop :=
  map snd st = rev ((-1)%Z :: map (fun k => Z.of_nat (2 * k)) (seq 0 m)).

(** A line of the listing as it stands in a file. *)
Definition with_LF (l : string) : string := l +:+ String LF EmptyString.

(** The name under which a listed node is read back. *)
Definition dashed (nm : string) : string := "- " +:+ nm.

(** The line [print_reporting_relationships] prints for the node [m],
    if it prints one: the test of the source, on the name of the parent. *)
Definition report_line (h : heap) (m : nat) : option string :=
  nd ← h !! m;
  p ← parent nd;
  pn ← h !! p;
  if negb (String.eqb (name pn) "Root")
  then Some (name nd +:+ " reports to " +:+ name pn)
  else None.

(** The edge of the tree above the node [m], as a line, unless the parent
    of [m] is [root] or [m] has none. *)
Definition edge_line (h : heap) (root : nat) (m : nat) : option string :=
  nd ← h !! m;
  p ← parent nd;
  pn ← h !! p;
  if decide (p = root) then None
  else Some (name nd +:+ " reports to " +:+ name pn).

(** The identifier of the [k]-th node the Mermaid renderer visits. *)
Definition mermaid_id (k : nat) : string := "n" +:+ pretty k.

(** The lines of the flowchart for the node [j] when the walk starts at
    [c] and visits the references [c], [c + 1], ... in this order: the
    declaration of [j] and, unless [j] is the start, the edge from its
    parent. *)
Definition mermaid_lines (h : heap) (c : nat) (j : nat) : list string :=
  match h !! j with
  | None => []
  | Some nd =>
      (TAB +:+ mermaid_id (j - c) +:+ "[" +:+ DQ +:+ name nd +:+ DQ +:+ "]") ::
      (if decide (j = c) then []
       else match parent nd with
            | Some p => [TAB +:+ mermaid_id (p - c) +:+ " --> " +:+ mermaid_id (j - c)]
            | None => []
            end)
  end.

(** A computation that only prints, and prints the same whatever was
    printed before. *)
Definition uniform {A} (m : M A) : Prop :=
  exists out r, forall w, m w = (emit w out, r).

(** ** The vertices of the graph *)

(** The position of the first occurrence of a name. *)
Fixpoint index_of (nm : string) (l : list string) : option nat :=
  match l with
  | [] => None
  | x :: l' => if decide (x = nm) then Some 0 else S <$> index_of nm l'
  end.

(** The names seen so far, each once, in the order they were first seen. *)
Definition note (l : list string) (nm : string) : list string :=
  if decide (nm ∈ l) then l else l ++ [nm].

Definition first_seen (nms : list string) : list string := foldl note [] nms.

(** The vertex of a name: [node_k] for the [k]-th distinct name. *)
Definition vertex_id (l : list string) (nm : string) : string :=
  "node_" +:+ pretty (default 0 (index_of nm l)).

Definition root_name (t : rose) : string :=
  match t with Node nm _ => nm end.

(** The parent-to-child pairs of names, each just before the pairs of the
    child's own subtree. *)
Fixpoint edges_of (t : rose) : list (string * string) :=
  match t with
  | Node nm ks => concat (map (fun k => (nm, root_name k) :: edges_of k) ks)
  end.

(** The dictionary [node_ids] numbers the names of [l] in order. *)
Definition enumerates (ids : gmap string string) (l : list string) : Prop :=
  base.size ids = length l
  /\ forall nm, ids !! nm = (fun k => "node_" +:+ pretty k) <$> index_of nm l.

(** The [dot.node] statements of the names [nms] and the [dot.edge]
    statements of the pairs [es], with the vertices numbered along [l]. *)
Definition vertex_stmts (l : list string) (nms : list string) : list (string * string) :=
  map (fun nm => (vertex_id l nm, nm)) nms.

Definition edge_pairs (l : list string) (es : list (string * string))
    : list (string * string) :=
  map (fun e => (vertex_id l e.1, vertex_id l e.2)) es.

(** ** Sample inputs *)

(** Scenario A of the specification. *)
Definition scenario_A : string :=
  "CEO
  VP Sales
    Sales Rep 1
  VP Engineering
    Engineer 1
".

(** Scenario C: the name "Manager" under two parents. *)
Definition scenario_C : string :=
  "CEO
  Sales
    Manager
  Engineering
    Manager
".

(** Two top-level entries, each with one entry below it. *)
Definition two_entries : string :=
  "A
 B
C
 D
".

(** Only blank lines. *)
Definition blank_file : string :=
  "  

".

(** An entry that is itself called Root, with one entry below it. *)
Definition entry_named_Root : string :=
  "Root
  A
".

Definition heap_of (text : string) : heap :=
  match parse_org_file {[ "org.txt" := text ]} "org.txt" with
  | inr (h, _) => h
  | inl _ => []
  end.

Definition heap_A : heap := Eval vm_compute in heap_of scenario_A.
Definition heap_C : heap := Eval vm_compute in heap_of scenario_C.
Definition heap_two : heap := Eval vm_compute in heap_of two_entries.

Definition w0 : world := mkWorld [] [] [].

(** ** What the parser reads of a line *)

(** The indent and the stripped text of a line. *)
Definition line_key (line : string) : Z * string :=
  (count_leading_spaces line, strip line).

(** The keys of the lines that are not skipped. *)
Definition keys_of (lines : list string) : list (Z * string) :=
  map line_key (List.filter (fun l => negb (is_blank l)) lines).

(** The iteration of the loop for a line that is not blank, by its key. *)
Definition attach (key : Z * string) (s : heap * pstack) : result (heap * pstack) :=
  let '(h, st) := s in
  let '(h1, node) := OrgNode_new h key.2 in
  let st1 := pop_while st key.1 in
  match st1 with
  | [] => inl IndexError
  | (par, _) :: _ => inr (add_child h1 par node, (node, key.1) :: st1)
  end.

Fixpoint attach_all (keys : list (Z * string)) (s : heap * pstack)
    : result (heap * pstack) :=
  match keys with
  | [] => inr s
  | key :: rest => rbind (attach key s) (attach_all rest)
  end.

(** A line with [k] more spaces in front. *)
Definition indent_by (k : nat) (line : string) : string :=
  repeat_str " " k +:+ line.

(** Two stacks with the same nodes, the indents of the second [k] above
    those of the first, the root's entry apart. *)
Definition shifted (k : Z) (st1 st2 : pstack) : Prop :=
  Forall2 (fun e1 e2 =>
             e1.1 = e2.1
             /\ ((e1.2 = (-1)%Z /\ e2.2 = (-1)%Z)
                 \/ ((0 <= e1.2)%Z /\ e2.2 = (e1.2 + k)%Z))) st1 st2.

(** Two outcomes of the loop that differ by such a shift at most. *)
Definition agree (k : Z) (r1 r2 : result (heap * pstack)) : Prop :=
  match r1, r2 with
  | inr (h1, st1), inr (h2, st2) => h1 = h2 /\ shifted k st1 st2
  | inl e1, inl e2 => e1 = e2
  | _, _ => False
  end.

(** ** The stack between two pushes *)

(** Below the entry of the node [b], pushed with indent [ib]: every entry
    is that of an earlier node, with its indent, and the nodes made
    between that node and the one above it have indents not below the
    indent of the one above. *)
Fixpoint gaps (inds : list Z) (b : nat) (ib : Z) (st : pstack) : Prop :=
  match st with
  | [] => True
  | (a, ia) :: rest =>
      a < b /\ inds !! a = Some ia
      /\ (forall j ij, a < j < b -> inds !! j = Some ij -> (ib <= ij)%Z)
      /\ gaps inds a ia rest
  end.

(** The newest node is on top of the stack, and every parent is the last
    earlier node with a smaller indent. *)
Definition nearest (h : heap) (st : pstack) (inds : list Z) : Prop :=
  length inds = length h
  /\ (exists it rest,
        st = (length h - 1, it) :: rest
        /\ inds !! (length h - 1) = Some it
        /\ gaps inds (length h - 1) it rest)
  /\ (forall k nd p, h !! k = Some nd -> parent nd = Some p ->
        p < k
        /\ exists ip ik,
             inds !! p = Some ip /\ inds !! k = Some ik /\ (ip < ik)%Z
             /\ forall j ij, p < j < k -> inds !! j = Some ij -> (ik <= ij)%Z).

(** ** What a whole run prints *)

(** The Mermaid block for a walk that starts at [c] and visits [ids]. *)
Definition mermaid_block (h : heap) (c : nat) (ids : list nat) : list string :=
  ["```mermaid"; "flowchart TB"] ++ flat_map (mermaid_lines h c) ids ++ ["```"].

(** The graph of a tree of names. *)
Definition graph_of (nms : list string) (es : list (string * string)) : Digraph :=
  mkDigraph (vertex_stmts (first_seen nms) nms) (edge_pairs (first_seen nms) es).

(** The headers [main] writes to standard error when no format is given,
    and its last line there. *)
Definition headers : list string :=
  [ "Organization Chart";
    String LF "Reporting Relationships (for Visio import)";
    String LF "Mermaid Flowchart";
    String LF "Generating SVG...";
    "SVG file generated: org_chart.svg" ].

(** ** Growth of the store *)

(** The store [h'] holds every node of [h] with the same name and the same
    parent, its children followed by further ones at most. *)
Definition grows (h h' : heap) : Prop :=
  length h <= length h'
  /\ forall k nd, h !! k = Some nd ->
       exists nd', h' !! k = Some nd'
                   /\ name nd' = name nd /\ parent nd' = parent nd
                   /\ children nd `prefix_of` children nd'.

(** ** Trees laid out in the store *)

Lemma rose_ind' (P : rose -> Prop) :
  (forall nm ks, Forall P ks -> P (Node nm ks)) -> forall t, P t.
Proof.
  intros IH. fix go 1. intros [nm ks]. apply IH.
  induction ks as [|k ks IHks]; constructor; [apply go | exact IHks].
Qed.

Lemma enc_unfold par i nm ks :
  enc par i (Node nm ks) =
  mkOrgNode nm (kid_ids (S i) ks) par :: enc_forest (Some i) (S i) ks.
Proof.
  simpl. f_equal. generalize (S i) as j.
  induction ks as [|k ks IH]; intros j; simpl; [done|]. by rewrite IH.
Qed.

Lemma size_unfold nm ks : size (Node nm ks) = S (size_forest ks).
Proof. done. Qed.

Lemma depth_unfold nm ks : depth (Node nm ks) = S (depth_forest ks).
Proof. done. Qed.

Lemma depth_forest_cons k ks :
  depth_forest (k :: ks) = Nat.max (depth k) (depth_forest ks).
Proof. done. Qed.

Lemma size_forest_cons k ks : size_forest (k :: ks) = size k + size_forest ks.
Proof. done. Qed.

Lemma length_enc t : forall par i, length (enc par i t) = size t.
Proof.
  induction t as [nm ks IH] using rose_ind'. intros par i.
  rewrite enc_unfold, size_unfold. simpl. f_equal.
  generalize (S i) as j. generalize (Some i) as q.
  induction IH as [|k ks Hk _ IHks]; intros q j; simpl; [done|].
  rewrite length_app, Hk, IHks. done.
Qed.

Lemma length_enc_forest ks par j : length (enc_forest par j ks) = size_forest ks.
Proof.
  revert j. induction ks as [|k ks IH]; intros j; simpl; [done|].
  by rewrite length_app, length_enc, IH.
Qed.

Lemma seg_node h i par nm ks :
  seg h i par (Node nm ks) ->
  h !! i = Some (mkOrgNode nm (kid_ids (S i) ks) par) /\ segs h (S i) (Some i) ks.
Proof.
  intros (pre & post & -> & Hlen). rewrite enc_unfold. split.
  - rewrite lookup_app_r by lia. by rewrite Hlen, Nat.sub_diag.
  - exists (pre ++ [mkOrgNode nm (kid_ids (S i) ks) par]), post. split.
    + by rewrite <- !app_assoc.
    + rewrite length_app. simpl. lia.
Qed.

Lemma segs_cons h j par k ks :
  segs h j par (k :: ks) -> seg h j par k /\ segs h (j + size k) par ks.
Proof.
  intros (pre & post & -> & Hlen). simpl. split.
  - exists pre, (enc_forest par (j + size k) ks ++ post).
    by rewrite <- !app_assoc.
  - exists (pre ++ enc par j k), post. split.
    + by rewrite <- !app_assoc.
    + rewrite length_app, length_enc. lia.
Qed.

Lemma seg_whole par t : seg (enc par 0 t) 0 par t.
Proof. exists [], []. by rewrite app_nil_r. Qed.

Lemma depth_le_size t : depth t <= size t.
Proof.
  induction t as [nm ks IH] using rose_ind'.
  rewrite depth_unfold, size_unfold. apply le_n_S.
  unfold depth_forest, size_forest.
  induction IH as [|k ks Hk _ IHks]; simpl; [done|]. lia.
Qed.

Lemma subtree_seg h t :
  forall fuel i par, seg h i par t -> depth t <= fuel -> subtree fuel h i = Some t.
Proof.
  induction t as [nm ks IH] using rose_ind'. intros fuel i par Hseg Hd.
  rewrite depth_unfold in Hd. destruct fuel as [|fuel]; [lia|].
  apply seg_node in Hseg as [Hi Hks]. simpl. rewrite Hi. simpl.
  assert (Hd' : depth_forest ks <= fuel) by lia. clear Hd Hi.
  enough (mapM (subtree fuel h) (kid_ids (S i) ks) = Some ks) as -> by done.
  revert Hks Hd'. generalize (S i) as j. generalize (Some i) as q.
  induction IH as [|k ks Hk _ IHks]; intros q j Hks Hd'; [done|].
  apply segs_cons in Hks as [Hk' Hks]. rewrite depth_forest_cons in Hd'.
  simpl. rewrite (Hk fuel j q Hk') by lia. simpl.
  rewrite (IHks q (j + size k) Hks) by lia. done.
Qed.

Lemma preorder_seg h t :
  forall fuel i par, seg h i par t -> depth t <= fuel ->
    preorder fuel h i = Some (seq i (size t)).
Proof.
  induction t as [nm ks IH] using rose_ind'. intros fuel i par Hseg Hd.
  rewrite depth_unfold in Hd. destruct fuel as [|fuel]; [lia|].
  apply seg_node in Hseg as [Hi Hks]. simpl preorder. rewrite Hi. simpl.
  assert (Hd' : depth_forest ks <= fuel) by lia. clear Hd Hi.
  enough (exists l, mapM (preorder fuel h) (kid_ids (S i) ks) = Some l
                    /\ concat l = seq (S i) (size_forest ks)) as (l & -> & Hl).
  { simpl. by rewrite Hl. }
  revert Hks Hd'. generalize (S i) as j. generalize (Some i) as q.
  induction IH as [|k ks Hk _ IHks]; intros q j Hks Hd'; [by exists []|].
  apply segs_cons in Hks as [Hk' Hks]. rewrite depth_forest_cons in Hd'.
  destruct (IHks q (j + size k) Hks) as (l & Hl & Hc); [lia|].
  exists (seq j (size k) :: l). simpl.
  rewrite (Hk fuel j q Hk') by lia. simpl. rewrite Hl. simpl. split; [done|].
  rewrite Hc. change (size_forest (k :: ks)) with (size k + size_forest ks).
  by rewrite seq_app.
Qed.

(** ** Adding a leaf on the last-child path *)

Lemma kid_ids_app j ks ks' :
  kid_ids j (ks ++ ks') = kid_ids j ks ++ kid_ids (j + size_forest ks) ks'.
Proof.
  revert j. induction ks as [|k ks IH]; intros j; simpl.
  - by rewrite Nat.add_0_r.
  - rewrite IH. do 2 f_equal. unfold size_forest. simpl. f_equal. lia.
Qed.

Lemma enc_forest_app par j ks ks' :
  enc_forest par j (ks ++ ks') =
  enc_forest par j ks ++ enc_forest par (j + size_forest ks) ks'.
Proof.
  revert j. induction ks as [|k ks IH]; intros j; simpl.
  - by rewrite Nat.add_0_r.
  - rewrite IH, <- app_assoc. do 2 f_equal. unfold size_forest. simpl. f_equal. lia.
Qed.

Lemma spine_unfold i nm ks : spine i (Node nm ks) = i :: spine_forest (S i) ks.
Proof. reflexivity. Qed.

Lemma spine_forest_cons2 j k k' ks :
  spine_forest j (k :: k' :: ks) = spine_forest (j + size k) (k' :: ks).
Proof. done. Qed.

Lemma spine_bounds t : forall i d p, spine i t !! d = Some p -> i <= p < i + size t.
Proof.
  induction t as [nm ks IH] using rose_ind'. intros i d p.
  rewrite spine_unfold, size_unfold. destruct d as [|d]; simpl.
  { intros [= <-]. lia. }
  enough (forall j, spine_forest j ks !! d = Some p -> j <= p < j + size_forest ks) as Hf.
  { intros H%Hf. lia. }
  clear i. induction IH as [|k ks Hk _ IHks]; intros j; [done|].
  destruct ks as [|k' ks].
  - simpl. intros H%Hk. unfold size_forest. simpl. lia.
  - rewrite spine_forest_cons2, size_forest_cons. intros H%IHks. lia.
Qed.

Lemma spine_forest_bounds ks j d p :
  spine_forest j ks !! d = Some p -> j <= p < j + size_forest ks.
Proof.
  revert j. induction ks as [|k ks IH]; intros j; [done|].
  destruct ks as [|k' ks].
  - simpl. intros H%spine_bounds. unfold size_forest. simpl. lia.
  - rewrite spine_forest_cons2, size_forest_cons. intros H%IH. lia.
Qed.

Lemma spine_forest_snoc j ks k :
  spine_forest j (ks ++ [k]) = spine (j + size_forest ks) k.
Proof.
  revert j. induction ks as [|k0 ks IH]; intros j.
  - simpl. by rewrite Nat.add_0_r.
  - change ((k0 :: ks) ++ [k]) with (k0 :: (ks ++ [k])).
    destruct (ks ++ [k]) as [|k1 l] eqn:E; [by destruct ks|].
    rewrite spine_forest_cons2, IH, size_forest_cons. f_equal. lia.
Qed.

Section add_leaf.
Context (nm : string).

Lemma enc_add_leaf d : forall t par i p,
  spine i t !! d = Some p ->
  enc par i (add_leaf d nm t) =
  alter (append_child (i + size t)) (p - i) (enc par i t) ++ [mkOrgNode nm [] (Some p)].
Proof.
  induction d as [|d IHd]; intros [n ks] par i p; rewrite spine_unfold.
  - intros [= <-]. simpl add_leaf. rewrite !enc_unfold, Nat.sub_diag, size_unfold.
    rewrite kid_ids_app, enc_forest_app. simpl. unfold append_child. simpl.
    by rewrite !Nat.add_succ_r.
  - simpl lookup. intros Hp. simpl add_leaf. rewrite !enc_unfold, size_unfold.
    pose proof (spine_forest_bounds _ _ _ _ Hp) as Hb.
    replace (p - i) with (S (p - S i)) by lia. simpl alter.
    replace (i + S (size_forest ks)) with (S i + size_forest ks) by lia.
    revert Hp Hb. generalize (S i) as j. generalize (Some i) as q. clear i.
    intros q j Hp Hb.
    enough (kid_ids j (on_last (add_leaf d nm) ks) = kid_ids j ks /\
            enc_forest q j (on_last (add_leaf d nm) ks) =
            alter (append_child (j + size_forest ks)) (p - j) (enc_forest q j ks)
            ++ [mkOrgNode nm [] (Some p)]) as [-> ->]; [done|].
    clear Hb. revert j Hp. induction ks as [|k ks IHks]; intros j Hp; [done|].
    destruct ks as [|k' ks].
    + simpl in Hp. simpl. split; [done|].
      rewrite !app_nil_r, (IHd _ _ _ _ Hp). unfold size_forest. simpl.
      by rewrite Nat.add_0_r.
    + rewrite spine_forest_cons2 in Hp.
      pose proof (spine_forest_bounds _ _ _ _ Hp) as Hb.
      destruct (IHks _ Hp) as [E1 E2].
      change (on_last (add_leaf d nm) (k :: k' :: ks))
        with (k :: on_last (add_leaf d nm) (k' :: ks)).
      split.
      * change (kid_ids j (k :: ?l)) with (j :: kid_ids (j + size k) l).
        by rewrite E1.
      * change (enc_forest q j (k :: ?l))
          with (enc q j k ++ enc_forest q (j + size k) l).
        rewrite E2, app_assoc. f_equal.
        replace (p - j) with (length (enc q j k) + (p - (j + size k)))
          by (rewrite length_enc; lia).
        rewrite alter_app_r. do 2 f_equal.
        rewrite (size_forest_cons k). f_equal. lia.
Qed.

Lemma spine_add_leaf d : forall t i p,
  spine i t !! d = Some p ->
  spine i (add_leaf d nm t) = take (S d) (spine i t) ++ [i + size t].
Proof.
  induction d as [|d IHd]; intros [n ks] i p; rewrite spine_unfold.
  - intros _. simpl add_leaf. rewrite spine_unfold, spine_forest_snoc, size_unfold.
    simpl. do 2 f_equal. lia.
  - simpl lookup. intros Hp. simpl add_leaf. rewrite spine_unfold, size_unfold.
    rewrite firstn_cons. simpl. f_equal.
    replace (i + S (size_forest ks)) with (S i + size_forest ks) by lia.
    revert Hp. generalize (S i) as j. clear i.
    induction ks as [|k ks IHks]; intros j Hp; [done|].
    destruct ks as [|k' ks].
    + simpl in Hp. simpl. rewrite (IHd _ _ _ Hp). unfold size_forest. simpl.
      by rewrite Nat.add_0_r.
    + rewrite spine_forest_cons2 in Hp.
      change (on_last (add_leaf d nm) (k :: k' :: ks))
        with (k :: on_last (add_leaf d nm) (k' :: ks)).
      assert (exists k1 l, on_last (add_leaf d nm) (k' :: ks) = k1 :: l) as (k1 & l & E).
      { destruct ks; simpl; eauto. }
      rewrite E, spine_forest_cons2, <- E, (IHks _ Hp), spine_forest_cons2.
      rewrite (size_forest_cons k). by rewrite Nat.add_assoc.
Qed.

Lemma names_add_leaf d : forall t i p,
  spine i t !! d = Some p -> names (add_leaf d nm t) = names t ++ [nm].
Proof.
  induction d as [|d IHd]; intros [n ks] i p; rewrite spine_unfold.
  - intros _. simpl. f_equal. rewrite map_app, concat_app. done.
  - simpl lookup. intros Hp. simpl. f_equal.
    revert Hp. generalize (S i) as j. clear i.
    induction ks as [|k ks IHks]; intros j Hp; [done|].
    destruct ks as [|k' ks].
    + simpl in Hp. simpl. rewrite (IHd _ _ _ Hp), !app_nil_r. done.
    + rewrite spine_forest_cons2 in Hp.
      change (on_last (add_leaf d nm) (k :: k' :: ks))
        with (k :: on_last (add_leaf d nm) (k' :: ks)).
      rewrite !map_cons, !concat_cons, (IHks _ Hp), app_assoc. done.
Qed.

Lemma size_add_leaf d t i p :
  spine i t !! d = Some p -> size (add_leaf d nm t) = S (size t).
Proof.
  intros Hp. rewrite <- (length_enc _ None i), (enc_add_leaf _ _ _ _ _ Hp).
  rewrite length_app, length_alter, length_enc. simpl. lia.
Qed.

End add_leaf.

(** ** The parser builds the tree in the store *)

Lemma length_lstrip s : String.length (lstrip s) <= String.length s.
Proof. induction s as [|c s IH]; simpl; [done|]. destruct (is_space c); simpl; lia. Qed.

Lemma count_leading_spaces_nonneg line : (0 <= count_leading_spaces line)%Z.
Proof. unfold count_leading_spaces. pose proof (length_lstrip line). lia. Qed.

Lemma pop_while_suffix st indent : exists popped, st = popped ++ pop_while st indent.
Proof.
  induction st as [|[n i] st [a IH]]; simpl; [by exists []|].
  destruct (indent <=? i)%Z.
  - exists ((n, i) :: a). simpl. by rewrite <- IH.
  - by exists [].
Qed.

Lemma pop_while_bottom st indent r :
  last st = Some (r, (-1)%Z) -> (0 <= indent)%Z ->
  last (pop_while st indent) = Some (r, (-1)%Z).
Proof.
  intros Hl Hi. induction st as [|[n i] st IH]; [done|].
  simpl. destruct (Z.leb_spec indent i) as [Hle|Hlt]; [|done].
  destruct st as [|x st]; simpl in Hl.
  - injection Hl as -> ->. lia.
  - apply IH. exact Hl.
Qed.

Lemma pop_while_top st indent n i rest :
  pop_while st indent = (n, i) :: rest -> (i < indent)%Z.
Proof.
  induction st as [|[m j] st IH]; simpl; [done|].
  destruct (Z.leb_spec indent j) as [Hle|Hlt]; [done|].
  intros [= -> -> ->]. done.
Qed.

Lemma rev_split_lookup {A} (l a b : list A) x :
  rev l = a ++ x :: b ->
  l !! length b = Some x /\ take (S (length b)) l = rev b ++ [x].
Proof.
  intros H. apply (f_equal (@rev A)) in H. rewrite rev_involutive in H.
  rewrite rev_app_distr in H. simpl in H. rewrite <- app_assoc in H. subst l.
  split.
  - rewrite lookup_app_r by (rewrite length_rev; lia).
    by rewrite length_rev, Nat.sub_diag.
  - rewrite app_assoc. rewrite take_app_length'; [done|].
    rewrite length_app, length_rev. simpl. lia.
Qed.

Lemma add_child_new h par nm :
  par < length h ->
  add_child (h ++ [mkOrgNode nm [] None]) par (length h) =
  alter (append_child (length h)) par h ++ [mkOrgNode nm [] (Some par)].
Proof.
  intros Hp. unfold add_child.
  rewrite alter_app_l by done.
  rewrite alter_app_r_alt by (rewrite length_alter; lia).
  rewrite length_alter, Nat.sub_diag. done.
Qed.

Lemma tied_pop t st indent :
  tied t st -> (0 <= indent)%Z ->
  exists par ip rest,
    pop_while st indent = (par, ip) :: rest
    /\ spine 0 t !! length rest = Some par
    /\ take (S (length rest)) (spine 0 t) = rev (map fst rest) ++ [par]
    /\ last ((par, ip) :: rest) = Some (0, (-1)%Z).
Proof.
  intros [Hids Hbot] Hnn.
  pose proof (pop_while_bottom st indent 0 Hbot Hnn) as Hbot1.
  destruct (pop_while_suffix st indent) as [popped Hsuf].
  destruct (pop_while st indent) as [|[par ip] rest] eqn:Est; [done|].
  assert (Hrev : rev (spine 0 t) = map fst popped ++ par :: map fst rest).
  { rewrite <- Hids, Hsuf at 1. by rewrite map_app. }
  apply rev_split_lookup in Hrev as [Hpar Htake]. rewrite length_map in Hpar, Htake.
  by exists par, ip, rest.
Qed.

Lemma tree_line_nonblank line t st :
  tied t st -> is_blank line = false ->
  exists par ip rest,
    pop_while st (count_leading_spaces line) = (par, ip) :: rest
    /\ spine 0 t !! length rest = Some par
    /\ tree_line line (t, st) =
         (add_leaf (length rest) (strip (strip line)) t,
          (size t, count_leading_spaces line) :: (par, ip) :: rest)
    /\ tied (tree_line line (t, st)).1 (tree_line line (t, st)).2.
Proof.
  intros Ht Hb.
  destruct (tied_pop t st _ Ht (count_leading_spaces_nonneg line))
    as (par & ip & rest & Est & Hpar & Htake & Hbot).
  exists par, ip, rest. unfold tree_line. rewrite Hb, Est.
  replace (length ((par, ip) :: rest) - 1) with (length rest) by (simpl; lia).
  split; [done|]. split; [done|]. split; [done|]. split; [|done].
  cbn [map fst snd]. rewrite (spine_add_leaf _ _ _ _ _ Hpar), Htake.
  rewrite !rev_app_distr. simpl. by rewrite rev_involutive.
Qed.

Lemma tree_line_tied line t st :
  tied t st -> tied (tree_line line (t, st)).1 (tree_line line (t, st)).2.
Proof.
  intros Ht. destruct (is_blank line) eqn:Hb.
  - unfold tree_line. by rewrite Hb.
  - by destruct (tree_line_nonblank line t st Ht Hb) as (? & ? & ? & ? & ? & ? & ?).
Qed.

Lemma parse_line_tree line t st :
  tied t st ->
  parse_line line (enc None 0 t, st) =
    inr (enc None 0 (tree_line line (t, st)).1, (tree_line line (t, st)).2)
  /\ tied (tree_line line (t, st)).1 (tree_line line (t, st)).2.
Proof.
  intros Ht. split; [|by apply tree_line_tied].
  destruct (is_blank line) eqn:Hb.
  { unfold parse_line, tree_line. by rewrite Hb. }
  destruct (tree_line_nonblank line t st Ht Hb) as (par & ip & rest & Est & Hpar & -> & _).
  unfold parse_line. rewrite Hb, Est. unfold OrgNode_new. cbn [fst snd].
  pose proof (spine_bounds _ _ _ _ Hpar) as Hbd.
  rewrite add_child_new by (rewrite length_enc; lia).
  rewrite length_enc.
  by rewrite (enc_add_leaf _ _ _ _ _ _ Hpar), Nat.sub_0_r.
Qed.

Lemma parse_lines_tree lines : forall t st,
  tied t st ->
  parse_lines lines (enc None 0 t, st) =
    inr (enc None 0 (tree_lines lines (t, st)).1, (tree_lines lines (t, st)).2)
  /\ tied (tree_lines lines (t, st)).1 (tree_lines lines (t, st)).2.
Proof.
  induction lines as [|line lines IH]; intros t st Ht; [done|].
  destruct (parse_line_tree line t st Ht) as [E Ht'].
  change (parse_lines (line :: lines) (enc None 0 t, st))
    with (rbind (parse_line line (enc None 0 t, st)) (parse_lines lines)).
  change (tree_lines (line :: lines) (t, st))
    with (tree_lines lines (tree_line line (t, st))).
  rewrite E. destruct (tree_line line (t, st)) as [t' st']. apply IH, Ht'.
Qed.

Lemma parse_org_file_tree (fs : gmap string string) filename text :
  fs !! filename = Some text ->
  parse_org_file fs filename = inr (enc None 0 (parsed_tree text), 0).
Proof.
  intros Hf. unfold parse_org_file. cbn [OrgNode_new]. rewrite Hf.
  change ([] ++ [mkOrgNode (strip "Root") [] None]) with (enc None 0 (Node "Root" [])).
  destruct (parse_lines_tree (readlines (translate_newlines text)) (Node "Root" [])
              [(0, (-1)%Z)]) as [E _]; [done|].
  simpl length. rewrite E. done.
Qed.

(** ** Stripping *)

Lemma rstrip_idem s : rstrip (rstrip s) = rstrip s.
Proof.
  induction s as [|c s IH]; simpl; [done|].
  destruct (is_space c && is_empty (rstrip s)) eqn:E; simpl; [done|].
  by rewrite IH, E.
Qed.

Lemma lstrip_head s :
  lstrip s = EmptyString \/ exists c u, lstrip s = String c u /\ is_space c = false.
Proof.
  induction s as [|c s IH]; simpl; [by left|].
  destruct (is_space c) eqn:E; [done|]. right. by exists c, s.
Qed.

Lemma lstrip_strip s : lstrip (strip s) = strip s.
Proof.
  unfold strip. destruct (lstrip_head s) as [->|(c & u & -> & Hc)]; [done|].
  simpl. rewrite Hc. simpl. by rewrite Hc.
Qed.

Lemma strip_idem s : strip (strip s) = strip s.
Proof. unfold strip at 1. rewrite lstrip_strip. unfold strip. apply rstrip_idem. Qed.

(** ** The nodes of the parsed tree *)

Lemma names_enc t : forall par i, map name (enc par i t) = names t.
Proof.
  induction t as [nm ks IH] using rose_ind'. intros par i.
  rewrite enc_unfold. simpl. f_equal.
  generalize (S i) as j. generalize (Some i) as q.
  induction IH as [|k ks Hk _ IHks]; intros q j; simpl; [done|].
  by rewrite map_app, Hk, IHks.
Qed.

Lemma length_names t : length (names t) = size t.
Proof. by rewrite <- (names_enc t None 0), length_map, length_enc. Qed.

Lemma names_tree_lines lines : forall t st,
  tied t st ->
  names (tree_lines lines (t, st)).1 =
  names t ++ map strip (List.filter (fun l => negb (is_blank l)) lines).
Proof.
  induction lines as [|line lines IH]; intros t st Ht.
  { simpl. by rewrite app_nil_r. }
  pose proof (tree_line_tied line t st Ht) as Ht'.
  change (tree_lines (line :: lines) (t, st))
    with (tree_lines lines (tree_line line (t, st))).
  simpl List.filter. destruct (is_blank line) eqn:Hb.
  - simpl. unfold tree_line in *. rewrite Hb in *. by apply IH.
  - destruct (tree_line_nonblank line t st Ht Hb) as (par & ip & rest & _ & Hpar & E & _).
    rewrite E in *. simpl negb. cbv iota. simpl in Ht'. rewrite (IH _ _ Ht').
    rewrite (names_add_leaf _ _ _ _ _ Hpar), strip_idem, <- app_assoc. done.
Qed.

Lemma parsed_tree_names text :
  names (parsed_tree text) = "Root" :: map strip (nonblank_lines text).
Proof. unfold parsed_tree. by rewrite names_tree_lines. Qed.

Lemma parsed_tree_size text : size (parsed_tree text) = S (length (nonblank_lines text)).
Proof. by rewrite <- length_names, parsed_tree_names; simpl; rewrite length_map. Qed.

(** C1.  For a file with N lines that are not blank, the tree returned by
    [parse_org_file] has, beneath the root, exactly N nodes: the pre-order
    walk from the root visits the root and then the references 1 .. N, and
    the node made for the k-th such line carries that line stripped. *)
Theorem parse_org_file_nodes (fs : gmap string string) filename text :
  fs !! filename = Some text ->
  exists h,
    parse_org_file fs filename = inr (h, 0)
    /\ preorder (length h) h 0 = Some (0 :: seq 1 (length (nonblank_lines text)))
    /\ forall k line, nonblank_lines text !! k = Some line ->
          name <$> h !! (1 + k) = Some (strip line).
Proof.
  intros Hf. exists (enc None 0 (parsed_tree text)).
  split; [by apply parse_org_file_tree|]. split.
  - rewrite (preorder_seg _ (parsed_tree text) _ 0 None (seg_whole _ _)).
    + by rewrite parsed_tree_size.
    + rewrite length_enc. apply depth_le_size.
  - intros k line Hk. rewrite <- list_lookup_fmap.
    change (name <$> enc None 0 (parsed_tree text))
      with (map name (enc None 0 (parsed_tree text))).
    rewrite names_enc, parsed_tree_names. simpl.
    change (map strip (nonblank_lines text)) with (strip <$> nonblank_lines text).
    by rewrite list_lookup_fmap, Hk.
Qed.

Lemma parse_org_file_nodes_witness :
  exists h,
    parse_org_file {[ "org.txt" := "a" ]} "org.txt" = inr (h, 0)
    /\ preorder (length h) h 0 = Some (0 :: seq 1 (length (nonblank_lines "a")))
    /\ forall k line, nonblank_lines "a" !! k = Some line ->
          name <$> h !! (1 + k) = Some (strip line).
Proof. apply (parse_org_file_nodes {[ "org.txt" := "a" ]} "org.txt" "a"). reflexivity. Defined.

(** ** The stack keeps the root *)

Lemma parse_lines_cons line lines s :
  parse_lines (line :: lines) s = rbind (parse_line line s) (parse_lines lines).
Proof. done. Qed.

Lemma parse_line_bottom line h st :
  last st = Some (0, (-1)%Z) ->
  exists h' st', parse_line line (h, st) = inr (h', st') /\ last st' = Some (0, (-1)%Z).
Proof.
  intros Hbot. unfold parse_line. destruct (is_blank line); [by eauto|].
  pose proof (pop_while_bottom st _ 0 Hbot (count_leading_spaces_nonneg line)) as Hb.
  unfold OrgNode_new.
  destruct (pop_while st (count_leading_spaces line)) as [|[par ip] rest]; [done|].
  eexists _, _. split; [done|]. exact Hb.
Qed.

Lemma parse_lines_bottom lines : forall h st,
  last st = Some (0, (-1)%Z) ->
  exists h' st', parse_lines lines (h, st) = inr (h', st') /\ last st' = Some (0, (-1)%Z).
Proof.
  induction lines as [|line lines IH]; intros h st Hbot; [by eauto|].
  destruct (parse_line_bottom line h st Hbot) as (h1 & st1 & E & Hbot1).
  rewrite parse_lines_cons, E. simpl. by apply IH.
Qed.

(** C10.  The parser is total on the content of the file.  The leading
    white space of a line is never below 0, so it exceeds the root's
    indent of -1; from the initial stack every sequence of lines is
    processed without an exception and leaves the root's entry at the
    bottom of the stack; and [parse_org_file] returns for every text. *)
Theorem parse_org_file_total :
  (forall line, (-1 < count_leading_spaces line)%Z)
  /\ (forall lines h,
        exists h' st, parse_lines lines (h, [(0, (-1)%Z)]) = inr (h', st)
                      /\ last st = Some (0, (-1)%Z))
  /\ (forall (fs : gmap string string) filename text,
        exists h, parse_org_file (<[filename := text]> fs) filename = inr (h, 0)).
Proof.
  split; [|split].
  - intros line. pose proof (count_leading_spaces_nonneg line). lia.
  - intros lines h. by apply parse_lines_bottom.
  - intros fs filename text. eexists. apply parse_org_file_tree, lookup_insert_eq.
Qed.

(** ** Indentation along the parent links *)

Lemma pop_while_subset st indent x : x ∈ pop_while st indent -> x ∈ st.
Proof.
  destruct (pop_while_suffix st indent) as [a E]. intros Hx.
  rewrite E. apply elem_of_app. by right.
Qed.

Lemma parse_line_indented line h st inds h' st' :
  indented h st inds ->
  parse_line line (h, st) = inr (h', st') ->
  indented h' st' (if is_blank line then inds else inds ++ [count_leading_spaces line]).
Proof.
  intros (Hlen & Hst & Hpar) E. unfold parse_line in E.
  destruct (is_blank line); [by injection E as <- <-|].
  unfold OrgNode_new in E. set (indent := count_leading_spaces line) in *.
  destruct (pop_while st indent) as [|[par ip] rest] eqn:Est; [done|].
  injection E as <- <-.
  assert (Hip : inds !! par = Some ip).
  { apply Hst, (pop_while_subset _ indent). rewrite Est. by left. }
  assert (Hlt : par < length h).
  { rewrite <- Hlen. by apply lookup_lt_Some in Hip. }
  pose proof (pop_while_top _ _ _ _ _ Est) as Htop.
  rewrite add_child_new by done. split; [|split].
  - rewrite !length_app, length_alter. simpl. lia.
  - intros n i [[= -> ->]|Hin]%elem_of_cons.
    + rewrite <- Hlen, lookup_app_r by lia. by rewrite Nat.sub_diag.
    + apply lookup_app_l_Some, Hst, (pop_while_subset _ indent). by rewrite Est.
  - intros k nd Hk Hk0. destruct (decide (k < length h)) as [Hkl|Hkl].
    + rewrite lookup_app_l in Hk by (rewrite length_alter; lia).
      assert (exists nd0, h !! k = Some nd0 /\ parent nd = parent nd0) as (nd0 & Hk' & ->).
      { rewrite list_lookup_alter in Hk. destruct (decide (par = k)) as [->|_].
        - apply fmap_Some in Hk as (nd0 & ? & ->). by exists nd0.
        - by exists nd. }
      destruct (Hpar k nd0 Hk' Hk0) as (p & jp & jk & ? & ? & ? & ?).
      exists p, jp, jk. split; [done|].
      split; [by apply lookup_app_l_Some|]. split; [by apply lookup_app_l_Some|done].
    + rewrite lookup_app_r in Hk by (rewrite length_alter; lia).
      rewrite length_alter in Hk.
      destruct (k - length h) as [|m] eqn:Ek; [|by destruct m].
      injection Hk as <-. assert (k = length h) as -> by lia.
      exists par, ip, indent. simpl. split; [done|]. split; [by apply lookup_app_l_Some|].
      split; [|done]. rewrite <- Hlen, lookup_app_r by lia. by rewrite Nat.sub_diag.
Qed.

Lemma parse_lines_indented lines : forall h st inds h' st',
  indented h st inds ->
  parse_lines lines (h, st) = inr (h', st') ->
  indented h' st'
    (inds ++ map count_leading_spaces (List.filter (fun l => negb (is_blank l)) lines)).
Proof.
  induction lines as [|line lines IH]; intros h st inds h' st' Hi E.
  { injection E as <- <-. simpl. by rewrite app_nil_r. }
  rewrite parse_lines_cons in E.
  destruct (parse_line line (h, st)) as [e|[h1 st1]] eqn:E1; [done|].
  pose proof (parse_line_indented _ _ _ _ _ _ Hi E1) as Hi1.
  simpl in E. specialize (IH _ _ _ _ _ Hi1 E).
  simpl List.filter. destruct (is_blank line); simpl; [done|].
  by rewrite <- app_assoc in IH.
Qed.

(** C8.  In the tree [parse_org_file] returns, every node other than the
    root has a parent, and the indent recorded for it is strictly greater
    than the indent recorded for that parent; the root's is -1. *)
Theorem parse_org_file_indented (fs : gmap string string) filename text h root :
  fs !! filename = Some text ->
  parse_org_file fs filename = inr (h, root) ->
  recorded_indents text !! root = Some (-1)%Z
  /\ forall k nd, h !! k = Some nd -> k <> root ->
       exists p ip ik,
         parent nd = Some p
         /\ recorded_indents text !! p = Some ip
         /\ recorded_indents text !! k = Some ik
         /\ (ip < ik)%Z.
Proof.
  intros Hf E. unfold parse_org_file in E. cbn [OrgNode_new] in E. rewrite Hf in E.
  simpl length in E.
  destruct (parse_lines _ _) as [e|[h' st']] eqn:E1; [done|].
  injection E as <- <-. split; [done|].
  apply (parse_lines_indented _ _ _ [(-1)%Z]) in E1 as (_ & _ & H); [exact H|].
  split; [done|]. split.
  - by intros n i [= -> ->]%list_elem_of_singleton.
  - intros [|k] nd Hk Hk0; [done|]. by destruct k.
Qed.

Lemma parse_org_file_indented_witness :
  recorded_indents "a" !! 0 = Some (-1)%Z
  /\ forall k nd, [mkOrgNode "Root" [1] None; mkOrgNode "a" [] (Some 0)] !! k = Some nd ->
       k <> 0 ->
       exists p ip ik,
         parent nd = Some p
         /\ recorded_indents "a" !! p = Some ip
         /\ recorded_indents "a" !! k = Some ik
         /\ (ip < ik)%Z.
Proof.
  apply (parse_org_file_indented {[ "org.txt" := "a" ]} "org.txt" "a"); reflexivity.
Defined.

(** ** The indented listing *)

Lemma emit_nil w : emit w [] = w.
Proof. destruct w. unfold emit. simpl. by rewrite app_nil_r. Qed.

Lemma emit_emit w a b : emit (emit w a) b = emit w (a ++ b).
Proof. unfold emit. simpl. by rewrite app_assoc. Qed.

Lemma print_emit s w : print s w = (emit w [s], inr tt).
Proof. done. Qed.

Lemma listing_unfold level nm ks :
  listing level (Node nm ks) =
  (repeat_str "  " level +:+ "- " +:+ nm) :: concat (map (listing (S level)) ks).
Proof. done. Qed.

Lemma print_org_chart_seg h t :
  forall fuel i par level w,
    seg h i par t -> depth t <= fuel ->
    print_org_chart fuel h i level w = (emit w (listing level t), inr tt).
Proof.
  induction t as [nm ks IH] using rose_ind'. intros fuel i par level w Hseg Hd.
  rewrite depth_unfold in Hd. destruct fuel as [|fuel]; [lia|].
  apply seg_node in Hseg as [Hi Hks]. simpl print_org_chart.
  unfold bind at 1, lift, deref. rewrite Hi. unfold bind at 1. rewrite print_emit.
  cbn [name children]. rewrite listing_unfold.
  assert (Hd' : depth_forest ks <= fuel) by lia. clear Hd Hi.
  rewrite Nat.add_1_r.
  assert (Hf : forall w1,
    for_each (kid_ids (S i) ks) (fun child => print_org_chart fuel h child (S level)) w1
    = (emit w1 (concat (map (listing (S level)) ks)), inr tt)).
  { revert Hks Hd'. generalize (S i) as j. generalize (Some i) as q.
    induction IH as [|k ks Hk _ IHks]; intros q j Hks Hd' w1.
    { simpl. by rewrite emit_nil. }
    apply segs_cons in Hks as [Hk' Hks]. rewrite depth_forest_cons in Hd'.
    simpl. unfold bind at 1. rewrite (Hk fuel j q (S level) w1 Hk') by lia.
    rewrite (IHks q (j + size k) Hks) by lia. by rewrite emit_emit. }
  by rewrite Hf, emit_emit.
Qed.

(** ** Lines *)

Lemma sapp_nil s : EmptyString +:+ s = s.
Proof. done. Qed.

Lemma sapp_cons c s t : String c s +:+ t = String c (s +:+ t).
Proof. done. Qed.

Lemma sapp_nil_r s : s +:+ EmptyString = s.
Proof. induction s as [|c s IH]; [done|]. by rewrite sapp_cons, IH. Qed.

Lemma sapp_assoc s t u : (s +:+ t) +:+ u = s +:+ t +:+ u.
Proof. induction s as [|c s IH]; [done|]. by rewrite !sapp_cons, IH. Qed.

Lemma length_sapp s t : String.length (s +:+ t) = String.length s + String.length t.
Proof. induction s as [|c s IH]; [done|]. rewrite sapp_cons. simpl. by rewrite IH. Qed.

Lemma all_chars_sapp P s t : all_chars P (s +:+ t) = all_chars P s && all_chars P t.
Proof.
  induction s as [|c s IH]; [done|]. rewrite sapp_cons. simpl.
  by rewrite IH, andb_assoc.
Qed.

Lemma all_chars_lstrip P s : all_chars P s = true -> all_chars P (lstrip s) = true.
Proof.
  induction s as [|c s IH]; [done|]. simpl. intros [Hc Hs]%andb_true_iff.
  destruct (is_space c); [by apply IH|]. simpl. by rewrite Hc, Hs.
Qed.

Lemma all_chars_rstrip P s : all_chars P s = true -> all_chars P (rstrip s) = true.
Proof.
  induction s as [|c s IH]; [done|]. simpl. intros [Hc Hs]%andb_true_iff.
  destruct (is_space c && is_empty (rstrip s)); [done|]. simpl. by rewrite Hc, IH.
Qed.

Lemma all_chars_strip P s : all_chars P s = true -> all_chars P (strip s) = true.
Proof. intros H. by apply all_chars_rstrip, all_chars_lstrip. Qed.

Lemma only_final_LF_lstrip s : only_final_LF s = true -> only_final_LF (lstrip s) = true.
Proof.
  induction s as [|c s IH]; [done|]. intros H. simpl. destruct (is_space c); [|done].
  apply IH. simpl in H. destruct (Ascii.eqb c LF); [by destruct s|done].
Qed.

Lemma only_final_LF_rstrip s : only_final_LF s = true -> all_chars not_LF (rstrip s) = true.
Proof.
  induction s as [|c s IH]; [done|]. simpl.
  destruct (Ascii.eqb_spec c LF) as [->|Hc].
  - by destruct s.
  - intros H. destruct (is_space c && is_empty (rstrip s)); [done|].
    simpl. unfold not_LF at 1. destruct (Ascii.eqb_spec c LF); [done|]. by apply IH.
Qed.

Lemma all_chars_cons P c s : all_chars P (String c s) = P c && all_chars P s.
Proof. done. Qed.

Lemma translate_newlines_cons c s :
  translate_newlines (String c s) =
  if Ascii.eqb c CR then
    match s with
    | String c' _ =>
        if Ascii.eqb c' LF then translate_newlines s
        else String LF (translate_newlines s)
    | EmptyString => String LF EmptyString
    end
  else String c (translate_newlines s).
Proof. done. Qed.

Lemma translate_newlines_no_CR s : all_chars not_CR (translate_newlines s) = true.
Proof.
  induction s as [|c s IH]; [done|]. rewrite translate_newlines_cons.
  destruct (Ascii.eqb c CR) eqn:Ec.
  - destruct s as [|c' s']; [done|]. destruct (Ascii.eqb c' LF); [done|].
    rewrite all_chars_cons. by rewrite IH.
  - rewrite all_chars_cons. unfold not_CR at 1. by rewrite Ec, IH.
Qed.

Lemma translate_newlines_id s : all_chars not_CR s = true -> translate_newlines s = s.
Proof.
  induction s as [|c s IH]; [done|]. simpl. unfold not_CR at 1.
  intros [Hc Hs]%andb_true_iff. apply negb_true_iff in Hc. by rewrite Hc, IH.
Qed.

Lemma readlines_all_chars P s :
  all_chars P s = true -> Forall (fun l => all_chars P l = true) (readlines s).
Proof.
  induction s as [|c s IH]; [by constructor|]. simpl.
  intros [Hc Hs]%andb_true_iff. specialize (IH Hs).
  destruct (Ascii.eqb c LF).
  - constructor; [|done]. simpl. by rewrite Hc.
  - destruct (readlines s) as [|l ls].
    + constructor; [|done]. simpl. by rewrite Hc.
    + inversion IH as [|? ? Hl Hls]; subst. constructor; [|done]. simpl. by rewrite Hc, Hl.
Qed.

Lemma readlines_only_final_LF s : Forall (fun l => only_final_LF l = true) (readlines s).
Proof.
  induction s as [|c s IH]; [by constructor|]. simpl.
  destruct (Ascii.eqb c LF) eqn:Ec.
  - constructor; [|done]. simpl. by rewrite Ec.
  - destruct (readlines s) as [|l ls].
    + constructor; [|done]. simpl. by rewrite Ec.
    + inversion IH as [|? ? Hl Hls]; subst. constructor; [|done]. simpl. by rewrite Ec.
Qed.

(** A written line is read back as it was written. *)
Lemma readlines_written out :
  Forall (fun l => all_chars not_LF l = true) out ->
  readlines (written out) = map (fun l => l +:+ String LF EmptyString) out.
Proof.
  induction 1 as [|l out Hl _ IH]; [done|].
  unfold written in *. simpl foldr. simpl map. rewrite <- IH.
  generalize (foldr (fun l acc => l +:+ String LF acc) EmptyString out) as rest.
  intros rest. induction l as [|c l IHl].
  - by rewrite !sapp_nil.
  - rewrite !sapp_cons. simpl in Hl. apply andb_true_iff in Hl as [Hc Hl].
    unfold not_LF in Hc. apply negb_true_iff in Hc. simpl. rewrite Hc, (IHl Hl). done.
Qed.

Lemma written_no_CR out :
  Forall (fun l => all_chars not_CR l = true) out ->
  all_chars not_CR (written out) = true.
Proof.
  induction 1 as [|l out Hl _ IH]; [done|].
  unfold written in *. simpl. rewrite all_chars_sapp, Hl. simpl. by rewrite IH.
Qed.

(** ** Reading a listing back *)

Lemma rstrip_snoc_space s c :
  is_space c = true -> rstrip (s +:+ String c EmptyString) = rstrip s.
Proof.
  intros Hc. induction s as [|a s IH].
  - rewrite sapp_nil. simpl. by rewrite Hc.
  - rewrite sapp_cons. simpl. by rewrite IH.
Qed.

Lemma rstrip_clean nm : clean nm -> rstrip nm = nm.
Proof. intros [E _]. rewrite <- E at 1. unfold strip. by rewrite rstrip_idem. Qed.

Lemma lstrip_indent level s : lstrip (repeat_str "  " level +:+ s) = lstrip s.
Proof.
  induction level as [|level IH]; [done|].
  simpl repeat_str. rewrite sapp_assoc, !sapp_cons, sapp_nil. simpl. exact IH.
Qed.

Lemma length_indent level : String.length (repeat_str "  " level) = 2 * level.
Proof.
  induction level as [|level IH]; [done|].
  simpl repeat_str. rewrite length_sapp, IH. simpl. lia.
Qed.

Section listed_line.
Context (level : nat) (nm : string) (Hnm : clean nm).

Local Abbreviation line := (with_LF (repeat_str "  " level +:+ "- " +:+ nm)).

Lemma listed_line_lstrip : lstrip line = with_LF (dashed nm).
Proof.
  unfold with_LF, dashed. rewrite sapp_assoc, lstrip_indent.
  by rewrite !sapp_cons, sapp_nil.
Qed.

Lemma listed_line_strip : strip line = dashed nm.
Proof.
  unfold strip. rewrite listed_line_lstrip. unfold with_LF, dashed.
  rewrite !sapp_cons, sapp_nil. simpl.
  rewrite rstrip_snoc_space by done. rewrite (rstrip_clean nm Hnm).
  destruct Hnm as (_ & Hne & _). by destruct nm.
Qed.

Lemma listed_line_nonblank : is_blank line = false.
Proof. unfold is_blank. by rewrite listed_line_strip. Qed.

Lemma listed_line_indent : count_leading_spaces line = Z.of_nat (2 * level).
Proof.
  unfold count_leading_spaces. rewrite listed_line_lstrip.
  unfold with_LF. rewrite !length_sapp, length_indent.
  unfold dashed. rewrite !length_sapp. lia.
Qed.

End listed_line.

Lemma ladder_S m st :
  ladder (S m) st ->
  exists n st', st = (n, Z.of_nat (2 * m)) :: st' /\ ladder m st'.
Proof.
  unfold ladder. rewrite seq_S, map_app. simpl map.
  change ((-1)%Z :: ?l ++ [?x]) with (((-1)%Z :: l) ++ [x]).
  rewrite rev_app_distr. simpl rev at 1. simpl app.
  destruct st as [|[n i] st']; [done|]. simpl. intros [= -> H]. by exists n, st'.
Qed.

Lemma ladder_length m st : ladder m st -> length st = S m.
Proof.
  intros H. apply (f_equal length) in H.
  rewrite length_map, length_rev in H. simpl in H.
  by rewrite length_map, length_seq in H.
Qed.

Lemma pop_while_cons n i rest indent :
  pop_while ((n, i) :: rest) indent =
  if (indent <=? i)%Z then pop_while rest indent else (n, i) :: rest.
Proof. done. Qed.

Lemma pop_ladder m : forall st level,
  ladder m st -> level <= m -> ladder level (pop_while st (Z.of_nat (2 * level))).
Proof.
  induction m as [|m IH]; intros st level Hst Hle.
  - assert (level = 0) as -> by lia. unfold ladder in Hst. simpl in Hst.
    destruct st as [|[n i] [|? ?]]; try done. injection Hst as ->. done.
  - destruct (ladder_S _ _ Hst) as (n & st' & -> & Hst').
    rewrite pop_while_cons.
    destruct (Z.leb_spec (Z.of_nat (2 * level)) (Z.of_nat (2 * m))).
    + apply IH; [done|lia].
    + assert (level = S m) as -> by lia. done.
Qed.

Lemma ladder_push level st n :
  ladder level st -> ladder (S level) ((n, Z.of_nat (2 * level)) :: st).
Proof.
  unfold ladder. intros H. rewrite seq_S, map_app. simpl map.
  change ((-1)%Z :: ?l ++ [?x]) with (((-1)%Z :: l) ++ [x]).
  rewrite rev_app_distr. simpl. by rewrite H.
Qed.

Lemma tree_line_listed level nm t st m :
  clean nm -> ladder m st -> level <= m ->
  exists st',
    tree_line (with_LF (repeat_str "  " level +:+ "- " +:+ nm)) (t, st)
    = (add_leaf level (dashed nm) t, st')
    /\ ladder (S level) st'.
Proof.
  intros Hnm Hst Hle. unfold tree_line.
  rewrite (listed_line_nonblank level nm Hnm), (listed_line_indent level nm).
  rewrite strip_idem, (listed_line_strip level nm Hnm).
  pose proof (pop_ladder m st level Hst Hle) as Hpop.
  rewrite (ladder_length _ _ Hpop). replace (S level - 1) with level by lia.
  eexists. split; [done|]. by apply ladder_push.
Qed.

Lemma on_last_snoc {A} (f : A -> A) l x : on_last f (l ++ [x]) = l ++ [f x].
Proof.
  induction l as [|y l IH]; [done|].
  change ((y :: l) ++ [x]) with (y :: (l ++ [x])).
  simpl on_last. rewrite IH. by destruct (l ++ [x]) eqn:E; [destruct l|].
Qed.

Lemma on_last_ext {A} (f g : A -> A) l :
  (forall x, f x = g x) -> on_last f l = on_last g l.
Proof.
  intros H. induction l as [|y l IH]; [done|]. simpl. rewrite IH, H. done.
Qed.

Lemma on_last_compose {A} (f g : A -> A) l :
  on_last f (on_last g l) = on_last (fun x => f (g x)) l.
Proof.
  induction l as [|y l IH]; [done|]. destruct l as [|z l]; [done|].
  change (on_last g (y :: z :: l)) with (y :: on_last g (z :: l)).
  change (on_last (fun x => f (g x)) (y :: z :: l))
    with (y :: on_last (fun x => f (g x)) (z :: l)).
  rewrite <- IH. by destruct (on_last g (z :: l)) eqn:E; [destruct l|].
Qed.

Lemma add_leaf_graft d nm t : add_leaf d nm t = graft d (Node nm []) t.
Proof.
  revert t. induction d as [|d IH]; intros [n ks]; [done|].
  simpl. f_equal. by apply on_last_ext.
Qed.

Lemma graft_graft d nm ks k t :
  graft (S d) k (graft d (Node nm ks) t) = graft d (Node nm (ks ++ [k])) t.
Proof.
  revert t. induction d as [|d IH]; intros [n l].
  - simpl. by rewrite on_last_snoc.
  - change (graft (S d) (Node nm ks) (Node n l))
      with (Node n (on_last (graft d (Node nm ks)) l)).
    change (graft (S (S d)) k (Node n ?l'))
      with (Node n (on_last (graft (S d) k) l')).
    change (graft (S d) (Node nm (ks ++ [k])) (Node n l))
      with (Node n (on_last (graft d (Node nm (ks ++ [k]))) l)).
    rewrite on_last_compose. f_equal. by apply on_last_ext.
Qed.

Lemma tree_lines_app a b s : tree_lines (a ++ b) s = tree_lines b (tree_lines a s).
Proof. revert s. induction a as [|l a IH]; intros s; [done|]. simpl. apply IH. Qed.

Lemma tree_lines_listing t :
  Forall clean (names t) ->
  forall level T st m,
    ladder m st -> level <= m ->
    exists st' m',
      tree_lines (map with_LF (listing level t)) (T, st)
      = (graft level (map_rose dashed t) T, st')
      /\ ladder m' st' /\ S level <= m'.
Proof.
  induction t as [nm ks IH] using rose_ind'.
  intros Hcl level T st m Hst Hle. simpl in Hcl.
  apply Forall_cons in Hcl as [Hnm Hks].
  rewrite listing_unfold. simpl map.
  change (tree_lines (?l :: ?r) ?s) with (tree_lines r (tree_line l s)).
  destruct (tree_line_listed level nm T st m Hnm Hst Hle) as (st1 & -> & Hst1).
  rewrite add_leaf_graft.
  change (map_rose dashed (Node nm ks)) with (Node (dashed nm) (map (map_rose dashed) ks)).
  assert (Hgen : forall done st1 m1,
    ladder m1 st1 -> S level <= m1 ->
    exists st' m',
      tree_lines (map with_LF (concat (map (listing (S level)) ks)))
        (graft level (Node (dashed nm) done) T, st1)
      = (graft level (Node (dashed nm) (done ++ map (map_rose dashed) ks)) T, st')
      /\ ladder m' st' /\ S level <= m').
  { clear Hst1 st1 Hst Hle st m. induction IH as [|k ks Hk _ IHks]; intros done st1 m1 Hst1 Hle1.
    - simpl. rewrite app_nil_r. by exists st1, m1.
    - simpl in Hks. apply Forall_app in Hks as [Hk1 Hks].
      simpl map. simpl concat. rewrite map_app, tree_lines_app.
      destruct (Hk Hk1 (S level) (graft level (Node (dashed nm) done) T) st1 m1 Hst1 Hle1)
        as (st2 & m2 & -> & Hst2 & Hle2).
      rewrite graft_graft.
      destruct (IHks Hks (done ++ [map_rose dashed k]) st2 m2 Hst2) as (st3 & m3 & E & ? & ?);
        [lia|].
      rewrite E, <- app_assoc. by exists st3, m3. }
  apply (Hgen [] st1 (S level)); [done|lia].
Qed.

Lemma seg_size h i par t : seg h i par t -> i + size t <= length h.
Proof.
  intros (pre & post & -> & <-). rewrite !length_app, length_enc. lia.
Qed.

(** Every cell inside a laid-out tree is the root of a laid-out subtree,
    whose names are among the names of the tree. *)
Lemma seg_inside (P : string -> Prop) h t :
  forall i par, seg h i par t -> Forall P (names t) ->
  (forall p, par = Some p -> is_Some (h !! p)) ->
  forall n, i <= n < i + size t ->
  exists par' t', seg h n par' t' /\ Forall P (names t')
                  /\ (forall p, par' = Some p -> is_Some (h !! p)).
Proof.
  induction t as [nm ks IH] using rose_ind'. intros i par Hseg HP Hpar n Hn.
  destruct (decide (n = i)) as [->|Hne]; [by exists par, (Node nm ks)|].
  apply seg_node in Hseg as [Hi Hks]. rewrite size_unfold in Hn.
  simpl in HP. apply Forall_cons in HP as [_ HP].
  assert (Hn' : S i <= n < S i + size_forest ks) by lia. clear Hn Hne.
  assert (Hq : forall p, Some i = Some p -> is_Some (h !! p)).
  { intros p [= <-]. by rewrite Hi. }
  clear Hpar Hi. revert Hks Hn' HP Hq. generalize (S i) as j. generalize (Some i) as q.
  induction IH as [|k ks Hk _ IHks]; intros q j Hks Hn HP Hq.
  { unfold size_forest in Hn. simpl in Hn. lia. }
  apply segs_cons in Hks as [Hk' Hks]. rewrite size_forest_cons in Hn.
  simpl in HP. apply Forall_app in HP as [HPk HP].
  destruct (decide (n < j + size k)) as [Hlt|Hge].
  - apply (Hk j q Hk' HPk Hq). lia.
  - apply (IHks q (j + size k) Hks); [lia|done..].
Qed.

Lemma clean_Root : clean "Root".
Proof. by repeat split. Qed.

Lemma nonblank_clean lines :
  Forall (fun l => only_final_LF l = true) lines ->
  Forall (fun l => all_chars not_CR l = true) lines ->
  Forall clean (map strip (List.filter (fun l => negb (is_blank l)) lines)).
Proof.
  induction 1 as [|l lines Hl _ IH]; intros Hcr; [by constructor|].
  apply Forall_cons in Hcr as [Hcr1 Hcr]. specialize (IH Hcr).
  simpl. destruct (is_blank l) eqn:Hb; [done|]. simpl. constructor; [|done].
  split; [apply strip_idem|]. split.
  - intros E. unfold is_blank in Hb. by rewrite E in Hb.
  - split; [|by apply all_chars_strip].
    by apply only_final_LF_rstrip, only_final_LF_lstrip.
Qed.

Lemma parsed_tree_clean text : Forall clean (names (parsed_tree text)).
Proof.
  rewrite parsed_tree_names. constructor; [apply clean_Root|].
  apply nonblank_clean.
  - apply readlines_only_final_LF.
  - apply readlines_all_chars, translate_newlines_no_CR.
Qed.

Lemma all_chars_indent P level :
  P " "%char = true -> all_chars P (repeat_str "  " level) = true.
Proof.
  intros HP. induction level as [|level IH]; [done|].
  simpl repeat_str. rewrite all_chars_sapp, IH. simpl. by rewrite HP.
Qed.

Lemma listing_all_chars P t :
  P " "%char = true -> P "-"%char = true ->
  Forall (fun nm => all_chars P nm = true) (names t) ->
  forall level, Forall (fun l => all_chars P l = true) (listing level t).
Proof.
  intros Hsp Hdash. induction t as [nm ks IH] using rose_ind'. intros Hnm level.
  simpl in Hnm. apply Forall_cons in Hnm as [Hnm Hks].
  rewrite listing_unfold. constructor.
  - rewrite !all_chars_sapp, all_chars_indent, Hnm by done. simpl. by rewrite Hsp, Hdash.
  - generalize (S level) as lv. intros lv.
    induction IH as [|k ks Hk _ IHks]; [by constructor|].
    simpl in Hks. apply Forall_app in Hks as [Hk1 Hks].
    simpl. apply Forall_app. split; [by apply Hk|by apply IHks].
Qed.

(** Parsing the written listing of a tree of clean names. *)
Lemma parsed_tree_listing t :
  Forall clean (names t) ->
  parsed_tree (written (listing 0 t)) = Node "Root" [map_rose dashed t].
Proof.
  intros Hcl. unfold parsed_tree, file_lines.
  rewrite translate_newlines_id.
  2:{ apply written_no_CR, listing_all_chars; [done..|].
      eapply Forall_impl; [exact Hcl|]. by intros nm (_ & _ & _ & ?). }
  rewrite readlines_written.
  2:{ apply listing_all_chars; [done..|].
      eapply Forall_impl; [exact Hcl|]. by intros nm (_ & _ & ? & _). }
  destruct (tree_lines_listing t Hcl 0 (Node "Root" []) [(0, (-1)%Z)] 0)
    as (st' & m' & E & _); [done|lia|].
  fold with_LF. by rewrite E.
Qed.

(** C6.  Round trip of the indented listing.  For a node [n] of a parsed
    tree, let [t] be the tree of names below [n].  [print_org_chart] on
    [n] prints the lines [listing 0 t], one per node in pre-order, each
    two spaces per level, a dash, a space and the name.  Parsing these
    lines, written to a file, gives a root with a single entry under
    which lies a copy of [t], the same children in the same order at
    every node, every name read back with its dash. *)
Theorem listing_round_trip (fs : gmap string string) filename text h root n :
  fs !! filename = Some text ->
  parse_org_file fs filename = inr (h, root) ->
  n < length h ->
  exists t,
    subtree (length h) h n = Some t
    /\ (forall fuel w, length h <= fuel ->
          print_org_chart fuel h n 0 w = (emit w (listing 0 t), inr tt))
    /\ forall (fs' : gmap string string) filename',
          fs' !! filename' = Some (written (listing 0 t)) ->
          exists h',
            parse_org_file fs' filename' = inr (h', 0)
            /\ subtree (length h') h' 0 = Some (Node "Root" [map_rose dashed t]).
Proof.
  intros Hf E Hn. rewrite (parse_org_file_tree _ _ _ Hf) in E. injection E as <- <-.
  rewrite length_enc in Hn.
  destruct (seg_inside clean _ _ 0 None (seg_whole None (parsed_tree text))
              (parsed_tree_clean text) ltac:(done) n) as (par & t & Hseg & Hcl & _); [lia|].
  pose proof (seg_size _ _ _ _ Hseg) as Hsz. pose proof (depth_le_size t) as Hd.
  exists t. split; [|split].
  - by apply (subtree_seg _ _ _ _ par Hseg); lia.
  - intros fuel w Hfuel. apply (print_org_chart_seg _ _ _ _ par); [done|lia].
  - intros fs' filename' Hf'. eexists. split; [by apply parse_org_file_tree|].
    rewrite (parsed_tree_listing t Hcl).
    apply (subtree_seg _ _ _ _ None (seg_whole _ _)).
    rewrite length_enc. apply depth_le_size.
Qed.

(** ** Reporting relationships *)

Lemma omap_cons {A B} (f : A -> option B) x l :
  omap f (x :: l) = match f x with Some y => y :: omap f l | None => omap f l end.
Proof. done. Qed.

Lemma print_reporting_relationships_seg h t :
  forall fuel i par w,
    seg h i par t -> depth t <= fuel ->
    (forall p, par = Some p -> is_Some (h !! p)) ->
    print_reporting_relationships fuel h i w
    = (emit w (omap (report_line h) (seq i (size t))), inr tt).
Proof.
  induction t as [nm ks IH] using rose_ind'. intros fuel i par w Hseg Hd Hpar.
  rewrite depth_unfold in Hd. destruct fuel as [|fuel]; [lia|].
  apply seg_node in Hseg as [Hi Hks].
  assert (Hd' : depth_forest ks <= fuel) by lia.
  assert (Hf : forall w1,
    for_each (kid_ids (S i) ks) (fun child => print_reporting_relationships fuel h child) w1
    = (emit w1 (omap (report_line h) (seq (S i) (size_forest ks))), inr tt)).
  { assert (Hq : forall p, Some i = Some p -> is_Some (h !! p)).
    { intros p [= <-]. by rewrite Hi. }
    clear Hpar Hd Hi. revert Hks Hd' Hq. generalize (S i) as j. generalize (Some i) as q.
    induction IH as [|k ks Hk _ IHks]; intros q j Hks Hd' Hq w1.
    { simpl. by rewrite emit_nil. }
    apply segs_cons in Hks as [Hk' Hks]. rewrite depth_forest_cons in Hd'.
    simpl for_each. unfold bind at 1. rewrite (Hk fuel j q w1 Hk') by (done || lia).
    rewrite (IHks q (j + size k) Hks) by (done || lia).
    rewrite emit_emit, size_forest_cons, seq_app, omap_app. done. }
  rewrite size_unfold. cbn [seq]. rewrite omap_cons.
  assert (Hrl : report_line h i =
                match par with
                | Some p => pn ← h !! p;
                            if negb (String.eqb (name pn) "Root")
                            then Some (nm +:+ " reports to " +:+ name pn) else None
                | None => None
                end).
  { unfold report_line. rewrite Hi. by destruct par. }
  rewrite Hrl. clear Hrl.
  simpl print_reporting_relationships.
  unfold bind at 1, lift at 1, deref at 1. rewrite Hi. cbn [parent name children].
  destruct par as [p|].
  - destruct (Hpar p eq_refl) as [pn Hp]. unfold bind at 1, bind at 1, lift, deref.
    rewrite Hp. cbn [mbind option_bind].
    destruct (negb (String.eqb (name pn) "Root")).
    + rewrite print_emit, Hf, emit_emit. done.
    + unfold ret. rewrite Hf. done.
  - unfold bind at 1, ret. rewrite Hf. done.
Qed.

Lemma parsed_heap_names text i nd :
  enc None 0 (parsed_tree text) !! i = Some nd ->
  (i = 0 /\ name nd = "Root")
  \/ (exists k line, i = S k /\ nonblank_lines text !! k = Some line /\ name nd = strip line).
Proof.
  intros Hi. assert (Hn : map name (enc None 0 (parsed_tree text)) !! i = Some (name nd)).
  { change (map name ?l) with (name <$> l). by rewrite list_lookup_fmap, Hi. }
  rewrite names_enc, parsed_tree_names in Hn. destruct i as [|k].
  - left. by injection Hn as <-.
  - right. simpl in Hn. change (map strip ?l) with (strip <$> l) in Hn.
    rewrite list_lookup_fmap in Hn. apply fmap_Some in Hn as (line & ? & ?).
    by exists k, line.
Qed.

(** Whatever the names: started at a node [n] of a parsed tree, the
    renderer decides on the name of the parent of each node it visits. *)
Lemma reporting_relationships_by_parent_name
    (fs : gmap string string) filename text h root n :
  fs !! filename = Some text ->
  parse_org_file fs filename = inr (h, root) ->
  n < length h ->
  exists ids,
    preorder (length h) h n = Some ids
    /\ forall fuel w, length h <= fuel ->
         print_reporting_relationships fuel h n w
         = (emit w (omap (report_line h) ids), inr tt).
Proof.
  intros Hf E Hn. rewrite (parse_org_file_tree _ _ _ Hf) in E. injection E as <- <-.
  rewrite length_enc in Hn.
  destruct (seg_inside (fun _ => True) _ _ 0 None (seg_whole None (parsed_tree text))
              ltac:(by apply Forall_true) ltac:(done) n) as (par & t & Hseg & _ & Hpar); [lia|].
  pose proof (seg_size _ _ _ _ Hseg) as Hsz. pose proof (depth_le_size t) as Hd.
  exists (seq n (size t)). split.
  { apply (preorder_seg _ _ _ _ par Hseg). lia. }
  intros fuel w Hfuel.
  apply (print_reporting_relationships_seg _ t fuel n par w Hseg); [lia|done].
Qed.

(** C2, amended.  In a parsed tree none of whose entries is named "Root",
    [print_reporting_relationships] started at a node [n] prints, for the
    nodes of the subtree of [n] in pre-order, the line "name reports to
    parent-name" of exactly those whose parent is not the synthetic root:
    the edges of the tree that end in that subtree, the root's edges
    left out. *)
Theorem reporting_relationships_subtree
    (fs : gmap string string) filename text h root n :
  fs !! filename = Some text ->
  parse_org_file fs filename = inr (h, root) ->
  (forall line, line ∈ nonblank_lines text -> strip line <> "Root") ->
  n < length h ->
  exists ids,
    preorder (length h) h n = Some ids
    /\ forall fuel w, length h <= fuel ->
         print_reporting_relationships fuel h n w
         = (emit w (omap (edge_line h root) ids), inr tt).
Proof.
  intros Hf E Hroot Hn.
  destruct (reporting_relationships_by_parent_name _ _ _ _ _ _ Hf E Hn) as (ids & Hids & Hout).
  exists ids. split; [done|]. intros fuel w Hfuel. rewrite (Hout fuel w Hfuel).
  rewrite (parse_org_file_tree _ _ _ Hf) in E. injection E as <- <-.
  set (h := enc None 0 (parsed_tree text)) in *.
  f_equal. f_equal. apply list_omap_ext. apply Forall2_same_length_lookup.
  split; [done|]. intros k m m' Hm Hm'. rewrite Hm in Hm'. injection Hm' as <-.
  unfold report_line, edge_line. destruct (h !! m) as [nd|] eqn:Em; [|done]. simpl.
  destruct (parent nd) as [p|]; [|done]. simpl.
  destruct (h !! p) as [pn|] eqn:Ep; [|done]. simpl.
  destruct (parsed_heap_names _ _ _ Ep) as [[-> ->]|(j & line & -> & Hj & ->)].
  - done.
  - destruct (String.eqb_spec (strip line) "Root") as [Heq|Hne].
    + exfalso. apply (Hroot line); [|done]. by apply list_elem_of_lookup_2 in Hj.
    + done.
Qed.

(** ** The driver *)

Lemma size_pos t : 0 < size t.
Proof. destruct t. simpl. lia. Qed.

Lemma parsed_tree_root text :
  exists ks, parsed_tree text = Node "Root" ks
             /\ size_forest ks = length (nonblank_lines text).
Proof.
  pose proof (parsed_tree_names text) as Hn. pose proof (parsed_tree_size text) as Hs.
  destruct (parsed_tree text) as [nm ks]. simpl in Hn. injection Hn as -> _.
  exists ks. split; [done|]. rewrite size_unfold in Hs. lia.
Qed.

Lemma parse_org_file_missing (fs : gmap string string) filename :
  fs !! filename = None -> parse_org_file fs filename = inl FileNotFoundError.
Proof. intros Hf. unfold parse_org_file. cbn [OrgNode_new]. by rewrite Hf. Qed.

(** C7.  When the input path does not exist, [main] catches the
    exception, prints the two lines of the message on standard output
    and returns normally: nothing goes to standard error, nothing is
    rendered, no exception leaves [main]. *)
Theorem main_file_not_found (fs : gmap string string) fuel arg_filename arg_format w :
  let filename := match arg_filename with None => "org.txt" | Some f => f end in
  fs !! filename = None ->
  main fs fuel arg_filename arg_format w
  = (emit w [ "Error: " +:+ filename
              +:+ " not found. Please create a text file with your organization structure.";
              "Each line should represent a resource, with indentation showing reporting relationships." ],
     inr tt).
Proof.
  intros filename Hf. unfold main. fold filename.
  unfold try_except_FileNotFoundError, bind at 1, lift at 1.
  rewrite (parse_org_file_missing _ _ Hf). unfold bind. rewrite !print_emit, emit_emit. done.
Qed.

Lemma main_file_not_found_witness :
  main ∅ 0 (Some "nowhere.txt") None (mkWorld [] [] [])
  = (emit (mkWorld [] [] [])
       [ "Error: nowhere.txt not found. Please create a text file with your organization structure.";
         "Each line should represent a resource, with indentation showing reporting relationships." ],
     inr tt).
Proof. apply (main_file_not_found ∅ 0 (Some "nowhere.txt") None). reflexivity. Defined.

(** C4, amended.  For a file with only blank lines, or none, parsing
    gives a root without children.  The driver's calls of the listing,
    the reporting relationships and the image renderer index the root's
    missing first child and fail with [IndexError], which [main] does not
    catch; its call of the Mermaid renderer, which is given the root and
    tests that it has children, returns normally and prints nothing.
    Without a format the run ends at the first of these calls, after the
    first header. *)
Theorem main_empty_file (fs : gmap string string) fuel filename text w :
  fs !! filename = Some text ->
  nonblank_lines text = [] ->
  parse_org_file fs filename = inr ([mkOrgNode "Root" [] None], 0)
  /\ main fs fuel (Some filename) (Some Tree) w = (w, inl IndexError)
  /\ main fs fuel (Some filename) (Some Visio) w = (w, inl IndexError)
  /\ main fs fuel (Some filename) (Some Svg) w = (w, inl IndexError)
  /\ main fs fuel (Some filename) (Some Mermaid) w = (w, inr tt)
  /\ main fs fuel (Some filename) None w
     = (mkWorld (stdout w) (stderr w ++ ["Organization Chart"]) (rendered w), inl IndexError).
Proof.
  intros Hf Hnb.
  assert (E : parse_org_file fs filename = inr ([mkOrgNode "Root" [] None], 0)).
  { rewrite (parse_org_file_tree _ _ _ Hf).
    destruct (parsed_tree_root text) as (ks & -> & Hks). rewrite Hnb in Hks.
    destruct ks as [|k ks]; [done|]. rewrite size_forest_cons in Hks.
    pose proof (size_pos k). simpl in Hks. lia. }
  split; [done|].
  unfold main, try_except_FileNotFoundError, bind at 1, lift at 1. rewrite E.
  repeat split.
Qed.

(** ** The Mermaid flowchart *)

Lemma print_mermaid_nodes_seg h c t :
  forall fuel i par w counter pid,
    seg h i par t -> depth t <= fuel -> c <= i ->
    match counter with None => i = c | Some cnt => cnt = i - c end ->
    pid = (if decide (i = c) then None else (fun p => mermaid_id (p - c)) <$> par) ->
    _print_mermaid_nodes fuel h i pid counter w
    = (emit w (flat_map (mermaid_lines h c) (seq i (size t))), inr (i - c + size t)).
Proof.
  induction t as [nm ks IH] using rose_ind'. intros fuel i par w counter pid Hseg Hd Hc Hcnt Hpid.
  rewrite depth_unfold in Hd. destruct fuel as [|fuel]; [lia|].
  apply seg_node in Hseg as [Hi Hks].
  assert (Hd' : depth_forest ks <= fuel) by lia.
  assert (Hf : forall w1,
    for_each_counting (kid_ids (S i) ks) (S i - c)
      (fun child cnt => _print_mermaid_nodes fuel h child (Some (mermaid_id (i - c))) (Some cnt)) w1
    = (emit w1 (flat_map (mermaid_lines h c) (seq (S i) (size_forest ks))),
       inr (S i - c + size_forest ks))).
  { assert (Hj : c <= S i /\ i < S i) by lia.
    clear Hd Hi Hcnt Hpid. revert Hks Hd' Hj. generalize (S i) as j.
    induction IH as [|k ks Hk _ IHks]; intros j Hks Hd' Hj w1.
    { simpl. rewrite emit_nil. unfold ret, size_forest. simpl. do 2 f_equal. lia. }
    apply segs_cons in Hks as [Hk' Hks]. rewrite depth_forest_cons in Hd'.
    simpl for_each_counting. unfold bind at 1.
    rewrite (Hk fuel j (Some i) w1 (Some (j - c)) (Some (mermaid_id (i - c))) Hk');
      [|lia|lia|done|by rewrite decide_False by lia].
    replace (j - c + size k) with (j + size k - c) by lia.
    rewrite (IHks (j + size k) Hks) by lia.
    rewrite emit_emit, size_forest_cons, seq_app, flat_map_app.
    do 2 f_equal. lia. }
  rewrite size_unfold. cbn [seq flat_map]. unfold mermaid_lines at 1. rewrite Hi.
  cbn [name parent].
  assert (Hc0 : match counter with None => 0 | Some cnt => cnt end = i - c).
  { destruct counter; [done|lia]. }
  simpl _print_mermaid_nodes. rewrite Hc0.
  unfold bind at 1, lift at 1, deref at 1. rewrite Hi. cbn [name children].
  unfold bind at 1. rewrite print_emit. fold (mermaid_id (i - c)).
  replace (i - c + 1) with (S i - c) by lia.
  replace (i - c + S (size_forest ks)) with (S i - c + size_forest ks) by lia.
  subst pid. destruct (decide (i = c)) as [->|Hne].
  - unfold bind at 1, ret. rewrite Hf, emit_emit. done.
  - destruct par as [p|]; simpl fmap.
    + unfold bind at 1. rewrite print_emit, Hf, !emit_emit. done.
    + unfold bind at 1, ret. rewrite Hf, emit_emit. done.
Qed.

Lemma first_child_parsed text c :
  first_child (enc None 0 (parsed_tree text)) 0 = inr c ->
  c = 1 /\ exists k ks, parsed_tree text = Node "Root" (k :: ks)
                         /\ seg (enc None 0 (parsed_tree text)) 1 (Some 0) k.
Proof.
  destruct (parsed_tree_root text) as (ks & E & _). rewrite E.
  pose proof (seg_whole None (Node "Root" ks)) as Hseg.
  apply seg_node in Hseg as [H0 Hks].
  unfold first_child, deref. rewrite H0. simpl.
  destruct ks as [|k ks]; [done|]. simpl. intros [= <-]. split; [done|].
  exists k, ks. split; [done|]. by apply segs_cons in Hks as [? _].
Qed.

(** C3, amended.  When the root of a parsed tree has a first child [c],
    the Mermaid renderer walks the subtree of [c], that is the first
    top-level entry and what lies under it, in pre-order, which is the
    order [c], [c + 1], ... of the references.  Between the opening
    lines and the closing fence it prints for each of these nodes a
    declaration under the next identifier n0, n1, ..., and for each of
    them other than [c] an edge line from the identifier of its parent.
    Entries of later top-level lines are not part of the walk. *)
Theorem mermaid_flowchart_first_entry (fs : gmap string string) filename text h root c :
  fs !! filename = Some text ->
  parse_org_file fs filename = inr (h, root) ->
  first_child h root = inr c ->
  exists m,
    preorder (length h) h c = Some (seq c m)
    /\ forall fuel w, length h <= fuel ->
         print_mermaid_flowchart fuel h root w
         = (emit w (["```mermaid"; "flowchart TB"]
                    ++ flat_map (mermaid_lines h c) (seq c m)
                    ++ ["```"]), inr tt).
Proof.
  intros Hf E Hc. rewrite (parse_org_file_tree _ _ _ Hf) in E. injection E as <- <-.
  destruct (first_child_parsed _ _ Hc) as (-> & k & ks & Et & Hseg).
  pose proof (seg_size _ _ _ _ Hseg) as Hsz. pose proof (depth_le_size k) as Hd.
  exists (size k). split.
  { apply (preorder_seg _ _ _ _ (Some 0) Hseg). lia. }
  intros fuel w Hfuel.
  pose proof (seg_whole None (parsed_tree text)) as Hroot. rewrite Et in Hroot at 2.
  apply seg_node in Hroot as [H0 _].
  unfold print_mermaid_flowchart, bind at 1, lift at 1, deref. rewrite H0.
  cbn [name children kid_ids].
  change (String.eqb "Root" "Root" && negb (bool_decide (1 :: ?l = []))) with true.
  cbv iota.
  unfold bind at 1. rewrite print_emit. unfold bind at 1. rewrite print_emit.
  unfold bind at 1, lift at 1. unfold bind at 1.
  rewrite (print_mermaid_nodes_seg _ 1 k fuel 1 (Some 0) _ None None Hseg)
    by (done || lia).
  rewrite print_emit, !emit_emit. done.
Qed.

(** ** The Mermaid renderer prints the same each time *)

Lemma uniform_ret {A} (a : A) : uniform (ret a).
Proof. exists [], (inr a). intros w. by rewrite emit_nil. Qed.

Lemma uniform_raise {A} e : uniform (@raise A e).
Proof. exists [], (inl e). intros w. by rewrite emit_nil. Qed.

Lemma uniform_lift {A} (r : result A) : uniform (lift r).
Proof. exists [], r. intros w. by rewrite emit_nil. Qed.

Lemma uniform_print s : uniform (print s).
Proof. by exists [s], (inr tt). Qed.

Lemma uniform_bind {A B} (m : M A) (k : A -> M B) :
  uniform m -> (forall a, uniform (k a)) -> uniform (bind m k).
Proof.
  intros (out & r & Hm) Hk. destruct r as [e|a].
  - exists out, (inl e). intros w. unfold bind. by rewrite Hm.
  - destruct (Hk a) as (out' & r' & Hk'). exists (out ++ out'), r'.
    intros w. unfold bind. by rewrite Hm, Hk', emit_emit.
Qed.

Lemma uniform_for_each_counting xs : forall c body,
  (forall x c', uniform (body x c')) -> uniform (for_each_counting xs c body).
Proof.
  induction xs as [|x xs IH]; intros c body Hbody; simpl.
  - apply uniform_ret.
  - apply uniform_bind; [apply Hbody|]. intros c'. by apply IH.
Qed.

Lemma print_mermaid_nodes_uniform fuel : forall h i pid counter,
  uniform (_print_mermaid_nodes fuel h i pid counter).
Proof.
  induction fuel as [|fuel IH]; intros h i pid counter; simpl.
  - apply uniform_raise.
  - apply uniform_bind; [apply uniform_lift|]. intros nd.
    apply uniform_bind; [apply uniform_print|]. intros _.
    apply uniform_bind.
    + destruct pid; [apply uniform_print|apply uniform_ret].
    + intros _. apply uniform_for_each_counting. intros x c'. apply IH.
Qed.

Lemma print_mermaid_flowchart_uniform fuel h node :
  uniform (print_mermaid_flowchart fuel h node).
Proof.
  unfold print_mermaid_flowchart.
  apply uniform_bind; [apply uniform_lift|]. intros nd.
  destruct (String.eqb (name nd) "Root" && negb (bool_decide (children nd = [])));
    [|apply uniform_ret].
  apply uniform_bind; [apply uniform_print|]. intros _.
  apply uniform_bind; [apply uniform_print|]. intros _.
  apply uniform_bind; [apply uniform_lift|]. intros first.
  apply uniform_bind; [apply print_mermaid_nodes_uniform|]. intros _.
  apply uniform_print.
Qed.

(** C9.  The Mermaid renderer is deterministic: run a second time on the
    same tree, right after a first run, it returns the same result and
    appends to standard output the very lines the first run appended. *)
Theorem mermaid_deterministic fuel h node w w1 r1 w2 r2 :
  print_mermaid_flowchart fuel h node w = (w1, r1) ->
  print_mermaid_flowchart fuel h node w1 = (w2, r2) ->
  r2 = r1
  /\ exists out, stdout w1 = stdout w ++ out /\ stdout w2 = stdout w1 ++ out
                  /\ written (drop (length (stdout w)) (stdout w1))
                     = written (drop (length (stdout w1)) (stdout w2)).
Proof.
  destruct (print_mermaid_flowchart_uniform fuel h node) as (out & r & H).
  rewrite !H. intros [= <- <-] [= <- <-]. split; [done|]. exists out.
  simpl. rewrite !drop_app_length. done.
Qed.

Lemma mermaid_deterministic_witness :
  let h := [mkOrgNode "Root" [1] None; mkOrgNode "CEO" [2] (Some 0);
            mkOrgNode "VP" [] (Some 1)] in
  let w := mkWorld [] [] [] in
  let w1 := (print_mermaid_flowchart 5 h 0 w).1 in
  let w2 := (print_mermaid_flowchart 5 h 0 w1).1 in
  stdout w1 = ["```mermaid"; "flowchart TB";
               TAB +:+ "n0[" +:+ DQ +:+ "CEO" +:+ DQ +:+ "]";
               TAB +:+ "n1[" +:+ DQ +:+ "VP" +:+ DQ +:+ "]";
               TAB +:+ "n0 --> n1"; "```"]
  /\ (inr tt : result unit) = inr tt
  /\ exists out, stdout w1 = stdout w ++ out /\ stdout w2 = stdout w1 ++ out
                  /\ written (drop (length (stdout w)) (stdout w1))
                     = written (drop (length (stdout w1)) (stdout w2)).
Proof.
  intros h w w1 w2. split; [reflexivity|].
  apply (mermaid_deterministic 5 h 0 w w1 (inr tt) w2 (inr tt)); reflexivity.
Defined.

(** ** The graph of the image renderer *)

Lemma index_of_None nm l : index_of nm l = None <-> nm ∉ l.
Proof.
  induction l as [|x l IH]; simpl.
  - split; [|done]. intros _. apply not_elem_of_nil.
  - rewrite not_elem_of_cons. destruct (decide (x = nm)) as [->|Hne].
    + split; [done|]. by intros [? _].
    + rewrite fmap_None, IH. split; [by intros ?; split|by intros [_ ?]].
Qed.

Lemma index_of_Some nm l k : index_of nm l = Some k -> l !! k = Some nm.
Proof.
  revert k. induction l as [|x l IH]; intros k; simpl; [done|].
  destruct (decide (x = nm)) as [->|Hne].
  - by intros [= <-].
  - intros (k' & Hk' & ->)%fmap_Some. simpl. by apply IH.
Qed.

Lemma index_of_app_l nm l l' : nm ∈ l -> index_of nm (l ++ l') = index_of nm l.
Proof.
  induction l as [|x l IH]; simpl.
  - by intros ?%elem_of_nil.
  - destruct (decide (x = nm)) as [->|Hne]; [done|].
    intros [?|Hin]%elem_of_cons; [done|]. by rewrite IH.
Qed.

Lemma index_of_snoc nm nm' l :
  nm ∉ l ->
  index_of nm' (l ++ [nm]) =
  if decide (nm' = nm) then Some (length l) else index_of nm' l.
Proof.
  induction l as [|x l IH]; intros Hnin; simpl.
  - destruct (decide (nm = nm')) as [->|?]; [by rewrite decide_True|].
    by rewrite decide_False by done.
  - apply not_elem_of_cons in Hnin as [Hne Hnin]. rewrite (IH Hnin).
    destruct (decide (x = nm')) as [->|?].
    + by rewrite decide_False by done.
    + by destruct (decide (nm' = nm)).
Qed.

Lemma note_prefix l nm : l `prefix_of` note l nm.
Proof. unfold note. destruct (decide (nm ∈ l)); [done|]. by apply prefix_app_r. Qed.

Lemma note_elem l nm : nm ∈ note l nm.
Proof.
  unfold note. destruct (decide (nm ∈ l)); [done|]. apply elem_of_app. right. by left.
Qed.

Lemma note_idem l nm : note (note l nm) nm = note l nm.
Proof. unfold note at 1. by rewrite decide_True by apply note_elem. Qed.

Lemma foldl_note_prefix nms : forall l, l `prefix_of` foldl note l nms.
Proof.
  induction nms as [|nm nms IH]; intros l; simpl; [done|].
  etrans; [apply note_prefix|apply IH].
Qed.

Lemma prefix_elem (l l' : list string) nm : l `prefix_of` l' -> nm ∈ l -> nm ∈ l'.
Proof. intros [x ->] ?. apply elem_of_app. by left. Qed.

Lemma foldl_note_elem nms : forall l nm, nm ∈ nms -> nm ∈ foldl note l nms.
Proof.
  induction nms as [|x nms IH]; intros l nm; simpl; [by intros ?%elem_of_nil|].
  intros [->|Hin]%elem_of_cons; [|by apply IH].
  eapply prefix_elem; [apply foldl_note_prefix|apply note_elem].
Qed.

Lemma vertex_id_prefix l l' nm :
  l `prefix_of` l' -> nm ∈ l -> vertex_id l' nm = vertex_id l nm.
Proof. intros [x ->] Hin. unfold vertex_id. by rewrite index_of_app_l. Qed.

Lemma enumerates_empty : enumerates ∅ [].
Proof. split; [done|]. intros nm. by rewrite lookup_empty. Qed.

Lemma assign_id_enumerates ids l nm :
  enumerates ids l ->
  enumerates (assign_id ids nm).1 (note l nm)
  /\ (assign_id ids nm).2 = vertex_id (note l nm) nm.
Proof.
  intros [Hsz Hl]. unfold assign_id, note, vertex_id.
  destruct (ids !! nm) as [id|] eqn:E; rewrite Hl in E.
  - apply fmap_Some in E as (k & Hk & ->).
    assert (nm ∈ l). { apply dec_stable. intros Hn%index_of_None. congruence. }
    rewrite decide_True by done. simpl. rewrite Hk. done.
  - apply fmap_None, index_of_None in E. rewrite decide_False by done. simpl.
    rewrite index_of_snoc, decide_True by done. simpl. rewrite Hsz. split; [|done].
    split.
    + rewrite map_size_insert_None; [rewrite length_app; simpl; lia|].
      rewrite Hl. by apply fmap_None, index_of_None.
    + intros nm'. rewrite index_of_snoc by done.
      destruct (decide (nm' = nm)) as [->|Hne].
      * by rewrite lookup_insert_eq.
      * by rewrite lookup_insert_ne.
Qed.

Lemma vertex_id_inj l a b : a ∈ l -> b ∈ l -> vertex_id l a = vertex_id l b -> a = b.
Proof.
  intros Ha Hb. unfold vertex_id. intros E.
  apply (inj (String.append "node_")) in E. apply (inj pretty) in E.
  destruct (index_of a l) as [ka|] eqn:Ea; [|by apply index_of_None in Ea].
  destruct (index_of b l) as [kb|] eqn:Eb; [|by apply index_of_None in Eb].
  simpl in E. subst kb. apply index_of_Some in Ea, Eb. congruence.
Qed.

Lemma names_unfold nm ks : names (Node nm ks) = nm :: concat (map names ks).
Proof. done. Qed.

Lemma edges_of_unfold nm ks :
  edges_of (Node nm ks) = concat (map (fun k => (nm, root_name k) :: edges_of k) ks).
Proof. done. Qed.

Lemma root_name_names t : exists rest, names t = root_name t :: rest.
Proof. destruct t as [nm ks]. by eexists. Qed.

Lemma foldl_note_names l t : foldl note (note l (root_name t)) (names t) = foldl note l (names t).
Proof. destruct t as [nm ks]. simpl. by rewrite note_idem. Qed.

Lemma map_ext_elem {A B} (f g : A -> B) (l : list A) :
  (forall x, x ∈ l -> f x = g x) -> map f l = map g l.
Proof.
  induction l as [|x l IH]; intros H; [done|]. simpl. f_equal.
  - apply H. by left.
  - apply IH. intros y Hy. apply H. by right.
Qed.

Lemma elem_of_concat {A} (x : A) (ls : list (list A)) :
  x ∈ concat ls <-> exists l, l ∈ ls /\ x ∈ l.
Proof.
  induction ls as [|l ls IH]; simpl.
  - split; [by intros ?%elem_of_nil|]. by intros (l & ?%elem_of_nil & _).
  - rewrite elem_of_app, IH. split.
    + intros [?|(l' & ? & ?)]; [exists l; split; [by left|done]|].
      exists l'. split; [by right|done].
    + intros (l' & [->|?]%elem_of_cons & ?); [by left|]. right. by exists l'.
Qed.

Lemma edges_of_names t a b : (a, b) ∈ edges_of t -> a ∈ names t /\ b ∈ names t.
Proof.
  induction t as [nm ks IH] using rose_ind'. rewrite edges_of_unfold, names_unfold.
  intros (es & Hes & Hin)%elem_of_concat.
  change (map ?f ks) with (f <$> ks) in Hes.
  apply list_elem_of_fmap in Hes as (k & -> & Hk).
  rewrite Forall_forall in IH. specialize (IH k Hk).
  assert (Hsub : forall x, x ∈ names k -> x ∈ nm :: concat (map names ks)).
  { intros x Hx. right. apply elem_of_concat. exists (names k). split; [|done].
    change (map names ks) with (names <$> ks). by apply list_elem_of_fmap_2. }
  apply elem_of_cons in Hin as [[= -> ->]|Hin].
  - split; [by left|]. apply Hsub. destruct (root_name_names k) as [r ->]. by left.
  - destruct (IH Hin). split; by apply Hsub.
Qed.

Lemma vertex_stmts_prefix l l' nms :
  l `prefix_of` l' -> (forall nm, nm ∈ nms -> nm ∈ l) ->
  vertex_stmts l nms = vertex_stmts l' nms.
Proof.
  intros Hp Hin. apply map_ext_elem. intros nm Hnm.
  by rewrite (vertex_id_prefix l l') by auto.
Qed.

Lemma edge_pairs_prefix l l' es :
  l `prefix_of` l' -> (forall a b, (a, b) ∈ es -> a ∈ l /\ b ∈ l) ->
  edge_pairs l es = edge_pairs l' es.
Proof.
  intros Hp Hin. apply map_ext_elem. intros [a b] He. destruct (Hin a b He).
  simpl. by rewrite !(vertex_id_prefix l l') by auto.
Qed.

Lemma vertex_stmts_app l a b :
  vertex_stmts l (a ++ b) = vertex_stmts l a ++ vertex_stmts l b.
Proof. apply map_app. Qed.

Lemma edge_pairs_app l a b : edge_pairs l (a ++ b) = edge_pairs l a ++ edge_pairs l b.
Proof. apply map_app. Qed.

Lemma edge_pairs_cons l e es :
  edge_pairs l (e :: es) = (vertex_id l e.1, vertex_id l e.2) :: edge_pairs l es.
Proof. done. Qed.

Lemma add_nodes_seg h t :
  "Root" ∉ names t ->
  forall fuel i par node_ids l dot,
    seg h i par t -> depth t <= fuel ->
    enumerates (match node_ids with None => ∅ | Some d => d end) l ->
    exists ids',
      add_nodes fuel h i node_ids dot
      = inr (ids',
             mkDigraph
               (node_stmts dot ++ vertex_stmts (foldl note l (names t)) (names t))
               (edge_stmts dot ++ edge_pairs (foldl note l (names t)) (edges_of t)))
      /\ enumerates ids' (foldl note l (names t)).
Proof.
  induction t as [nm ks IH] using rose_ind'.
  intros Hroot fuel i par node_ids l dot Hseg Hd Hen.
  rewrite depth_unfold in Hd. destruct fuel as [|fuel]; [lia|].
  apply seg_node in Hseg as [Hi Hks].
  assert (Hd' : depth_forest ks <= fuel) by lia.
  rewrite names_unfold in Hroot. apply not_elem_of_cons in Hroot as [Hnm Hroot].
  simpl add_nodes. unfold rbind at 1, deref at 1. rewrite Hi. cbn [name children].
  destruct (String.eqb_spec nm "Root") as [?|_]; [congruence|].
  destruct (assign_id_enumerates _ l nm Hen) as [Hen1 Hcur].
  destruct (assign_id _ nm) as [ids1 cur]. simpl in Hen1, Hcur.
  set (l1 := note l nm) in *.
  rewrite names_unfold, edges_of_unfold. simpl foldl. fold l1.
  set (body := fun (child : nat) (s : gmap string string * Digraph) =>
         rbind (deref h child) (fun cd =>
           let '(ids2, child_id) := assign_id s.1 (name cd) in
           add_nodes fuel h child (Some ids2) (dot_edge s.2 cur child_id))).
  assert (Hf : forall ids_c l_c dot_c,
    enumerates ids_c l_c -> l1 `prefix_of` l_c ->
    exists ids',
      fold_result (kid_ids (S i) ks) (ids_c, dot_c) body
      = inr (ids',
             mkDigraph
               (node_stmts dot_c
                ++ vertex_stmts (foldl note l_c (concat (map names ks)))
                     (concat (map names ks)))
               (edge_stmts dot_c
                ++ edge_pairs (foldl note l_c (concat (map names ks)))
                     (concat (map (fun k => (nm, root_name k) :: edges_of k) ks))))
      /\ enumerates ids' (foldl note l_c (concat (map names ks)))).
  { clear Hi Hd Hen Hen1. revert Hks Hd' Hroot. generalize (S i) as j. generalize (Some i) as q.
    induction IH as [|k ks Hk _ IHks]; intros q j Hks Hd' Hroot ids_c l_c dot_c Hen_c Hpre.
    { exists ids_c. simpl. rewrite !app_nil_r. by destruct dot_c. }
    apply segs_cons in Hks as [Hk' Hks]. rewrite depth_forest_cons in Hd'.
    simpl in Hroot. apply not_elem_of_app in Hroot as [Hrk Hroot].
    assert (Hj : exists cd, h !! j = Some cd /\ name cd = root_name k).
    { destruct k as [kn kks]. apply seg_node in Hk' as [-> _]. by eexists. }
    destruct Hj as (cd & Hj & Hcd).
    simpl fold_result. unfold rbind at 1. unfold body at 1.
    unfold rbind at 1, deref at 1. rewrite Hj. cbn [fst snd]. rewrite Hcd.
    destruct (assign_id_enumerates _ l_c (root_name k) Hen_c) as [Hen2 Hcid].
    destruct (assign_id ids_c (root_name k)) as [ids2 cid]. simpl in Hen2, Hcid.
    destruct (Hk Hrk fuel j q (Some ids2) (note l_c (root_name k))
                (dot_edge dot_c cur cid) Hk' ltac:(lia) Hen2) as (ids3 & -> & Hen3).
    rewrite foldl_note_names in Hen3 |- *.
    set (l3 := foldl note l_c (names k)) in *.
    assert (Hp3 : l_c `prefix_of` l3) by apply foldl_note_prefix.
    destruct (IHks q (j + size k) Hks ltac:(lia) Hroot ids3 l3
                (mkDigraph (node_stmts (dot_edge dot_c cur cid) ++ vertex_stmts l3 (names k))
                           (edge_stmts (dot_edge dot_c cur cid) ++ edge_pairs l3 (edges_of k)))
                Hen3 ltac:(by etrans)) as (ids' & -> & Hen').
    exists ids'. simpl map. simpl concat. rewrite !foldl_app. fold l3.
    set (l' := foldl note l3 (concat (map names ks))) in *.
    assert (Hp' : l3 `prefix_of` l') by apply foldl_note_prefix.
    split; [|done]. f_equal. f_equal. cbn [node_stmts edge_stmts dot_edge]. f_equal.
    - rewrite vertex_stmts_app, <- app_assoc. f_equal. f_equal.
      apply vertex_stmts_prefix; [done|]. intros x Hx. by apply foldl_note_elem.
    - rewrite edge_pairs_cons, edge_pairs_app, <- !app_assoc. f_equal. simpl. f_equal.
      + subst cur cid. f_equal.
        * symmetry. apply vertex_id_prefix; [by repeat (etrans; [eassumption|])|].
          apply note_elem.
        * symmetry. apply vertex_id_prefix; [|apply note_elem].
          etrans; [|exact Hp']. unfold l3. rewrite <- foldl_note_names.
          apply foldl_note_prefix.
      + f_equal. apply edge_pairs_prefix; [done|]. intros a b Hab.
        apply edges_of_names in Hab as [? ?]. split; by apply foldl_note_elem. }
  destruct (Hf ids1 l1 (dot_node dot cur nm) Hen1 ltac:(done)) as (ids' & -> & Hen').
  exists ids'. split; [|done]. f_equal. f_equal. cbn [node_stmts edge_stmts dot_node].
  f_equal. rewrite <- app_assoc. f_equal. simpl. f_equal.
  rewrite Hcur. f_equal. symmetry.
  apply vertex_id_prefix; [apply foldl_note_prefix|apply note_elem].
Qed.

Lemma seg_names_lookup h i par t nm :
  seg h i par t -> nm ∈ names t ->
  exists j nd, i <= j /\ h !! j = Some nd /\ name nd = nm.
Proof.
  intros (pre & post & -> & <-) Hnm. rewrite <- (names_enc t par (length pre)) in Hnm.
  change (map name ?l) with (name <$> l) in Hnm.
  apply list_elem_of_fmap in Hnm as (nd & -> & Hnd).
  apply list_elem_of_lookup in Hnd as [k Hk].
  exists (length pre + k), nd. split; [lia|]. split; [|done].
  rewrite lookup_app_r by lia. replace (length pre + k - length pre) with k by lia.
  by apply lookup_app_l_Some.
Qed.

(** C5, amended.  In a parsed tree none of whose entries is named "Root",
    the image renderer started at a node [n] other than the root (the
    driver starts it at the root's first child), with [t] the tree of
    names below [n], hands over a graph in which each distinct name of
    [t] has one vertex, [node_k] for the [k]-th distinct name in
    pre-order, different names having different vertices; there is a
    node statement with this vertex for every node of [t] and an edge
    statement from the vertex of the parent's name to the vertex of the
    child's name for every parent and child of [t].  A name that occurs
    under two parents therefore has one vertex with an edge from each.
    Entries outside the subtree of [n] are not in the graph. *)
Theorem svg_chart_subtree (fs : gmap string string) filename text h root n :
  fs !! filename = Some text ->
  parse_org_file fs filename = inr (h, root) ->
  (forall line, line ∈ nonblank_lines text -> strip line <> "Root") ->
  n < length h -> n <> root ->
  exists t,
    subtree (length h) h n = Some t
    /\ (forall a b, a ∈ names t -> b ∈ names t ->
          vertex_id (first_seen (names t)) a = vertex_id (first_seen (names t)) b -> a = b)
    /\ forall fuel w, length h <= fuel ->
         generate_svg_chart fuel h n None w
         = (mkWorld (stdout w) (stderr w)
              (rendered w ++
               [("org_chart.svg",
                 mkDigraph (vertex_stmts (first_seen (names t)) (names t))
                           (edge_pairs (first_seen (names t)) (edges_of t)))]),
            inr "org_chart.svg").
Proof.
  intros Hf E Hroot Hn Hn0. rewrite (parse_org_file_tree _ _ _ Hf) in E. injection E as <- <-.
  rewrite length_enc in Hn.
  destruct (seg_inside (fun _ => True) _ _ 0 None (seg_whole None (parsed_tree text))
              ltac:(by apply Forall_true) ltac:(done) n) as (par & t & Hseg & _ & _); [lia|].
  pose proof (seg_size _ _ _ _ Hseg) as Hsz. pose proof (depth_le_size t) as Hd.
  set (h := enc None 0 (parsed_tree text)) in *.
  assert (Hnr : "Root" ∉ names t).
  { intros Hin. destruct (seg_names_lookup _ _ _ _ _ Hseg Hin) as (j & nd & Hj & Hnd & Hname).
    destruct (parsed_heap_names _ _ _ Hnd) as [[-> _]|(k & line & -> & Hk & Hl)]; [lia|].
    apply (Hroot line); [by apply list_elem_of_lookup_2 in Hk|congruence]. }
  exists t. split; [|split].
  - apply (subtree_seg _ _ _ _ par Hseg). lia.
  - intros a b Ha Hb. apply vertex_id_inj; by apply foldl_note_elem.
  - intros fuel w Hfuel. unfold generate_svg_chart, bind at 1, lift at 1.
    destruct (add_nodes_seg h t Hnr fuel n par None [] (mkDigraph [] []) Hseg ltac:(lia)
                enumerates_empty) as (ids' & -> & _).
    done.
Qed.

(** ** The theorems on the sample inputs *)

Lemma listing_round_trip_witness :
  exists t,
    subtree (length heap_A) heap_A 1 = Some t
    /\ (forall fuel w, length heap_A <= fuel ->
          print_org_chart fuel heap_A 1 0 w = (emit w (listing 0 t), inr tt))
    /\ forall (fs' : gmap string string) filename',
          fs' !! filename' = Some (written (listing 0 t)) ->
          exists h',
            parse_org_file fs' filename' = inr (h', 0)
            /\ subtree (length h') h' 0 = Some (Node "Root" [map_rose dashed t]).
Proof.
  apply (listing_round_trip {[ "org.txt" := scenario_A ]} "org.txt" scenario_A heap_A 0 1).
  - reflexivity.
  - reflexivity.
  - simpl. lia.
Defined.

Lemma reporting_relationships_subtree_witness :
  exists ids,
    preorder (length heap_A) heap_A 1 = Some ids
    /\ forall fuel w, length heap_A <= fuel ->
         print_reporting_relationships fuel heap_A 1 w
         = (emit w (omap (edge_line heap_A 0) ids), inr tt).
Proof.
  apply (reporting_relationships_subtree
           {[ "org.txt" := scenario_A ]} "org.txt" scenario_A heap_A 0 1).
  - reflexivity.
  - reflexivity.
  - apply Forall_forall. apply (bool_decide_unpack _). vm_compute. exact I.
  - simpl. lia.
Defined.

Lemma mermaid_flowchart_first_entry_witness :
  exists m,
    preorder (length heap_A) heap_A 1 = Some (seq 1 m)
    /\ forall fuel w, length heap_A <= fuel ->
         print_mermaid_flowchart fuel heap_A 0 w
         = (emit w (["```mermaid"; "flowchart TB"]
                    ++ flat_map (mermaid_lines heap_A 1) (seq 1 m)
                    ++ ["```"]), inr tt).
Proof.
  apply (mermaid_flowchart_first_entry
           {[ "org.txt" := scenario_A ]} "org.txt" scenario_A heap_A 0 1);
    reflexivity.
Defined.

Lemma main_empty_file_witness :
  parse_org_file {[ "org.txt" := blank_file ]} "org.txt"
    = inr ([mkOrgNode "Root" [] None], 0)
  /\ main {[ "org.txt" := blank_file ]} 0 (Some "org.txt") (Some Tree) w0 = (w0, inl IndexError)
  /\ main {[ "org.txt" := blank_file ]} 0 (Some "org.txt") (Some Visio) w0 = (w0, inl IndexError)
  /\ main {[ "org.txt" := blank_file ]} 0 (Some "org.txt") (Some Svg) w0 = (w0, inl IndexError)
  /\ main {[ "org.txt" := blank_file ]} 0 (Some "org.txt") (Some Mermaid) w0 = (w0, inr tt)
  /\ main {[ "org.txt" := blank_file ]} 0 (Some "org.txt") None w0
     = (mkWorld (stdout w0) (stderr w0 ++ ["Organization Chart"]) (rendered w0),
        inl IndexError).
Proof.
  apply (main_empty_file {[ "org.txt" := blank_file ]} 0 "org.txt" blank_file w0);
    reflexivity.
Defined.

Lemma svg_chart_subtree_witness :
  exists t,
    subtree (length heap_C) heap_C 1 = Some t
    /\ (forall a b, a ∈ names t -> b ∈ names t ->
          vertex_id (first_seen (names t)) a = vertex_id (first_seen (names t)) b -> a = b)
    /\ forall fuel w, length heap_C <= fuel ->
         generate_svg_chart fuel heap_C 1 None w
         = (mkWorld (stdout w) (stderr w)
              (rendered w ++
               [("org_chart.svg",
                 mkDigraph (vertex_stmts (first_seen (names t)) (names t))
                           (edge_pairs (first_seen (names t)) (edges_of t)))]),
            inr "org_chart.svg").
Proof.
  apply (svg_chart_subtree {[ "org.txt" := scenario_C ]} "org.txt" scenario_C heap_C 0 1).
  - reflexivity.
  - reflexivity.
  - apply Forall_forall. apply (bool_decide_unpack _). vm_compute. exact I.
  - simpl. lia.
  - lia.
Defined.

(** Scenario C, run: one vertex for "Manager", with an edge from each of
    its two parents. *)
Example scenario_C_graph :
  main {[ "org.txt" := scenario_C ]} 10 None (Some Svg) w0
  = (mkWorld ["SVG file generated: org_chart.svg"] []
       [("org_chart.svg",
         mkDigraph
           [("node_0", "CEO"); ("node_1", "Sales"); ("node_2", "Manager");
            ("node_3", "Engineering"); ("node_2", "Manager")]
           [("node_0", "node_1"); ("node_1", "node_2");
            ("node_0", "node_3"); ("node_3", "node_2")])],
     inr tt).
Proof. reflexivity. Qed.

(** Scenarios A and B, run. *)
Example scenario_A_listing :
  main {[ "org.txt" := scenario_A ]} 10 None (Some Tree) w0
  = (mkWorld ["- CEO"; "  - VP Sales"; "    - Sales Rep 1";
              "  - VP Engineering"; "    - Engineer 1"] [] [], inr tt).
Proof. reflexivity. Qed.

Example scenario_B_relationships :
  main {[ "org.txt" := scenario_A ]} 10 None (Some Visio) w0
  = (mkWorld ["VP Sales reports to CEO"; "Sales Rep 1 reports to VP Sales";
              "VP Engineering reports to CEO";
              "Engineer 1 reports to VP Engineering"] [] [], inr tt).
Proof. reflexivity. Qed.

(** An entry named Root is taken for the synthetic root: the entry below
    it gets no line, and the graph has neither a vertex for it nor the
    edge to the entry below it. *)
Example entry_named_Root_relationships :
  main {[ "org.txt" := entry_named_Root ]} 10 None (Some Visio) w0 = (w0, inr tt).
Proof. reflexivity. Qed.

Example entry_named_Root_graph :
  main {[ "org.txt" := entry_named_Root ]} 10 None (Some Svg) w0
  = (mkWorld ["SVG file generated: org_chart.svg"] []
       [("org_chart.svg", mkDigraph [("node_0", "A")] [])],
     inr tt).
Proof. reflexivity. Qed.

(** ** Where the renderers stop short *)

Lemma ends_with_sapp p s : ends_with s (p +:+ s) = true.
Proof.
  unfold ends_with. rewrite length_sapp.
  replace (String.length p + String.length s - String.length s) with (String.length p) by lia.
  induction p as [|c p IH].
  - rewrite sapp_nil. apply String.eqb_refl.
  - rewrite sapp_cons. exact IH.
Qed.

(** C2 as stated fails on [two_entries]: the node "D" is in the tree and
    its parent "C" is not the synthetic root, yet the run with the
    [visio] format prints no line for it; it prints "B reports to A"
    and nothing else. *)
Lemma reporting_relationships_counterexample :
  ~ (forall h root w k nd p pn,
       parse_org_file {[ "org.txt" := two_entries ]} "org.txt" = inr (h, root) ->
       main {[ "org.txt" := two_entries ]} 10 None (Some Visio) w0 = (w, inr tt) ->
       h !! k = Some nd -> parent nd = Some p -> h !! p = Some pn -> p <> root ->
       (name nd +:+ " reports to " +:+ name pn) ∈ stdout w).
Proof.
  intros H.
  specialize (H heap_two 0 (mkWorld ["B reports to A"] [] []) 4
                (mkOrgNode "D" [] (Some 3)) 3 (mkOrgNode "C" [4] (Some 0))
                eq_refl eq_refl eq_refl eq_refl eq_refl ltac:(lia)).
  apply list_elem_of_In in H. vm_compute in H. destruct H as [H|[]]. discriminate H.
Qed.

(** C3 as stated fails on [two_entries]: the node "C" of the tree gets no
    declaration line, under any identifier. *)
Lemma mermaid_flowchart_counterexample :
  ~ (forall h root w k nd,
       parse_org_file {[ "org.txt" := two_entries ]} "org.txt" = inr (h, root) ->
       main {[ "org.txt" := two_entries ]} 10 None (Some Mermaid) w0 = (w, inr tt) ->
       h !! k = Some nd -> k <> root ->
       exists id, (TAB +:+ id +:+ "[" +:+ DQ +:+ name nd +:+ DQ +:+ "]") ∈ stdout w).
Proof.
  intros H.
  destruct (H heap_two 0
              (mkWorld ["```mermaid"; "flowchart TB";
                        TAB +:+ "n0[" +:+ DQ +:+ "A" +:+ DQ +:+ "]";
                        TAB +:+ "n1[" +:+ DQ +:+ "B" +:+ DQ +:+ "]";
                        TAB +:+ "n0 --> n1"; "```"] [] [])
              3 (mkOrgNode "C" [4] (Some 0)) eq_refl eq_refl eq_refl ltac:(lia))
    as [id Hid].
  cbn [name stdout] in Hid. rewrite <- sapp_assoc in Hid.
  apply list_elem_of_In in Hid.
  pose proof (ends_with_sapp (TAB +:+ id) ("[" +:+ DQ +:+ "C" +:+ DQ +:+ "]")) as E.
  simpl In in Hid.
  repeat (destruct Hid as [Hid|Hid]; [rewrite <- Hid in E; vm_compute in E; discriminate E|]).
  exact Hid.
Qed.

(** C4 as stated fails on [blank_file]: the driver's call of the Mermaid
    renderer does not fail, and its call of the image renderer does. *)
Lemma main_empty_file_counterexample :
  ~ (forall fmt, fmt <> Svg ->
       (main {[ "org.txt" := blank_file ]} 10 None (Some fmt) w0).2 = inl IndexError)
  /\ (main {[ "org.txt" := blank_file ]} 10 None (Some Svg) w0).2 = inl IndexError.
Proof.
  split; [|reflexivity]. intros H. specialize (H Mermaid ltac:(discriminate)).
  vm_compute in H. discriminate H.
Qed.

(** C5 as stated fails on [two_entries]: the name "C" of the tree has no
    vertex in the graph the run with the [svg] format hands over. *)
Lemma svg_chart_counterexample :
  ~ (forall h root w k nd,
       parse_org_file {[ "org.txt" := two_entries ]} "org.txt" = inr (h, root) ->
       main {[ "org.txt" := two_entries ]} 10 None (Some Svg) w0 = (w, inr tt) ->
       h !! k = Some nd -> k <> root ->
       exists path g id, (path, g) ∈ rendered w /\ (id, name nd) ∈ node_stmts g).
Proof.
  intros H.
  destruct (H heap_two 0
              (mkWorld ["SVG file generated: org_chart.svg"] []
                 [("org_chart.svg",
                   mkDigraph [("node_0", "A"); ("node_1", "B")] [("node_0", "node_1")])])
              3 (mkOrgNode "C" [4] (Some 0)) eq_refl eq_refl eq_refl ltac:(lia))
    as (path & g & id & Hg & Hid).
  apply list_elem_of_singleton in Hg. injection Hg as -> ->.
  apply list_elem_of_In in Hid. simpl in Hid.
  destruct Hid as [Hid|[Hid|[]]]; discriminate Hid.
Qed.

(** * Further properties of the program *)

(** ** Leading white space *)

(** X1.  [count_leading_spaces] counts the white space characters in
    front of the first character that is not white space, each tab or
    other white space character as one: the line is a run of that many
    white space characters followed by a rest that is empty or begins
    with a character that is not white space. *)
Theorem count_leading_spaces_spec line :
  exists ws,
    line = ws +:+ lstrip line
    /\ all_chars is_space ws = true
    /\ count_leading_spaces line = Z.of_nat (String.length ws)
    /\ (lstrip line = EmptyString
        \/ exists c rest, lstrip line = String c rest /\ is_space c = false).
Proof.
  assert (H : exists ws, line = ws +:+ lstrip line /\ all_chars is_space ws = true).
  { induction line as [|c s (ws & E & Hws)]; [by exists EmptyString|].
    simpl lstrip. destruct (is_space c) eqn:Hc.
    - exists (String c ws). rewrite sapp_cons, <- E. split; [done|]. simpl. by rewrite Hc.
    - by exists EmptyString. }
  destruct H as (ws & E & Hws). exists ws. split; [done|]. split; [done|]. split.
  - unfold count_leading_spaces. rewrite E at 1. rewrite length_sapp. lia.
  - apply lstrip_head.
Qed.

(** ** The names in a parsed tree *)

(** X2.  Every name in a parsed tree, the root's included, is stripped,
    not empty and free of line feeds and carriage returns. *)
Theorem parse_org_file_names_clean (fs : gmap string string) filename text h root :
  fs !! filename = Some text ->
  parse_org_file fs filename = inr (h, root) ->
  forall k nd, h !! k = Some nd -> clean (name nd).
Proof.
  intros Hf E k nd Hk. rewrite (parse_org_file_tree _ _ _ Hf) in E. injection E as <- <-.
  pose proof (parsed_tree_clean text) as Hcl. rewrite Forall_forall in Hcl. apply Hcl.
  rewrite <- (names_enc _ None 0). change (map name ?l) with (name <$> l).
  apply list_elem_of_fmap_2. by apply list_elem_of_lookup_2 in Hk.
Qed.

Lemma parse_org_file_names_clean_witness :
  clean (name (mkOrgNode "VP Sales" [3] (Some 1))).
Proof.
  apply (fun H1 H2 H3 =>
           parse_org_file_names_clean {[ "org.txt" := scenario_A ]} "org.txt" scenario_A
             heap_A 0 H1 H2 2 (mkOrgNode "VP Sales" [3] (Some 1)) H3); reflexivity.
Defined.

(** ** The first entry *)

(** X3.  [root.children[0]] fails with [IndexError] exactly on a file
    without a line that is not blank; otherwise it is the node made for
    the first such line, named by that line stripped, with the root as
    its parent. *)
Theorem first_child_first_line (fs : gmap string string) filename text h root :
  fs !! filename = Some text ->
  parse_org_file fs filename = inr (h, root) ->
  (nonblank_lines text = [] /\ first_child h root = inl IndexError)
  \/ (exists line rest c nd,
        nonblank_lines text = line :: rest
        /\ first_child h root = inr c
        /\ h !! c = Some nd
        /\ name nd = strip line /\ parent nd = Some root).
Proof.
  intros Hf E. rewrite (parse_org_file_tree _ _ _ Hf) in E. injection E as <- <-.
  destruct (parsed_tree_root text) as (ks & Et & Hks).
  pose proof (parsed_tree_names text) as Hn. rewrite Et in Hn |- *.
  pose proof (seg_whole None (Node "Root" ks)) as Hseg.
  apply seg_node in Hseg as [H0 Hsegs].
  unfold first_child, deref. rewrite H0. cbn [rbind children].
  destruct ks as [|[nm kks] ks].
  - left. split; [|done]. destruct (nonblank_lines text); [done|].
    unfold size_forest in Hks. simpl in Hks. lia.
  - right. apply segs_cons in Hsegs as [Hk _]. apply seg_node in Hk as [H1 _].
    simpl in Hn. injection Hn as Hn.
    destruct (nonblank_lines text) as [|line rest]; [done|]. simpl in Hn.
    injection Hn as Hnm _. eexists line, rest, 1, _. rewrite H1. by simpl.
Qed.

Lemma first_child_first_line_witness :
  (nonblank_lines scenario_A = [] /\ first_child heap_A 0 = inl IndexError)
  \/ (exists line rest c nd,
        nonblank_lines scenario_A = line :: rest
        /\ first_child heap_A 0 = inr c
        /\ heap_A !! c = Some nd
        /\ name nd = strip line /\ parent nd = Some 0).
Proof.
  apply (first_child_first_line {[ "org.txt" := scenario_A ]} "org.txt" scenario_A heap_A 0);
    reflexivity.
Defined.

(** ** What the parser reads of a line *)

Lemma parse_line_attach line s :
  parse_line line s = if is_blank line then inr s else attach (line_key line) s.
Proof. destruct s as [h st]. unfold parse_line, attach, line_key. by destruct (is_blank line). Qed.

Lemma parse_lines_attach lines : forall s,
  parse_lines lines s = attach_all (keys_of lines) s.
Proof.
  induction lines as [|line lines IH]; intros s; [done|].
  rewrite parse_lines_cons, parse_line_attach. unfold keys_of. simpl List.filter.
  destruct (is_blank line); simpl.
  - apply IH.
  - destruct (attach (line_key line) s); [done|]. simpl. apply IH.
Qed.

(** X4.  The parser reads of a file only the indents and the stripped
    texts of its lines that are not blank: two files that agree on these
    give the same tree or the same exception.  Blank lines, white space
    at the end of a line and the form of the line ends make no
    difference. *)
Theorem parse_org_file_keys (fs1 fs2 : gmap string string) f1 f2 text1 text2 :
  fs1 !! f1 = Some text1 ->
  fs2 !! f2 = Some text2 ->
  keys_of (file_lines text1) = keys_of (file_lines text2) ->
  parse_org_file fs1 f1 = parse_org_file fs2 f2.
Proof.
  intros H1 H2 Hk. unfold parse_org_file. cbn [OrgNode_new]. rewrite H1, H2.
  fold (file_lines text1) (file_lines text2). by rewrite !parse_lines_attach, Hk.
Qed.

Lemma parse_org_file_keys_witness :
  parse_org_file {[ "a.txt" := "A" +:+ String LF (String LF "  B  " +:+ String LF "") ]} "a.txt"
  = parse_org_file {[ "b.txt" := "A" +:+ String CR (String LF "  B") ]} "b.txt".
Proof.
  apply (parse_org_file_keys _ _ _ _
           ("A" +:+ String LF (String LF "  B  " +:+ String LF ""))
           ("A" +:+ String CR (String LF "  B"))); reflexivity.
Defined.

(** ** Indenting a whole file *)

Lemma lstrip_spaces k s : lstrip (repeat_str " " k +:+ s) = lstrip s.
Proof.
  induction k as [|k IH]; [done|].
  simpl repeat_str. rewrite sapp_assoc, sapp_cons, sapp_nil. simpl. exact IH.
Qed.

Lemma length_spaces k : String.length (repeat_str " " k) = k.
Proof.
  induction k as [|k IH]; [done|]. simpl repeat_str. rewrite length_sapp, IH. done.
Qed.

Lemma line_key_indent_by k line :
  is_blank (indent_by k line) = is_blank line
  /\ line_key (indent_by k line) = ((line_key line).1 + Z.of_nat k, (line_key line).2)%Z.
Proof.
  unfold is_blank, line_key, strip, count_leading_spaces, indent_by.
  rewrite lstrip_spaces, length_sapp, length_spaces. split; [done|].
  simpl. f_equal. lia.
Qed.

Lemma keys_of_indent_by k lines :
  keys_of (map (indent_by k) lines)
  = map (fun key => (key.1 + Z.of_nat k, key.2)%Z) (keys_of lines).
Proof.
  unfold keys_of. induction lines as [|line lines IH]; [done|].
  destruct (line_key_indent_by k line) as [Hb Hk]. simpl. rewrite Hb.
  destruct (is_blank line); simpl; [done|]. by rewrite Hk, IH.
Qed.

Lemma keys_of_nonneg lines : Forall (fun key => (0 <= key.1)%Z) (keys_of lines).
Proof.
  unfold keys_of. induction lines as [|line lines IH]; [by constructor|].
  simpl. destruct (is_blank line); simpl; [done|]. constructor; [|done].
  apply count_leading_spaces_nonneg.
Qed.

Lemma pop_while_shifted k st1 st2 indent :
  (0 <= k)%Z -> (0 <= indent)%Z -> shifted k st1 st2 ->
  shifted k (pop_while st1 indent) (pop_while st2 (indent + k)).
Proof.
  intros Hk Hi. induction 1 as [|[n1 i1] [n2 i2] st1 st2 [Hn Hs] Hrest IH]; [by constructor|].
  simpl in Hn, Hs. rewrite !pop_while_cons.
  destruct (Z.leb_spec indent i1), (Z.leb_spec (indent + k) i2); try lia; try done.
  by constructor.
Qed.

Lemma attach_shifted k key h st1 st2 :
  (0 <= k)%Z -> (0 <= key.1)%Z -> shifted k st1 st2 ->
  agree k (attach key (h, st1)) (attach ((key.1 + k)%Z, key.2) (h, st2)).
Proof.
  intros Hk Hi Hs. destruct key as [i nm]. simpl in *. unfold attach. cbn [fst snd OrgNode_new].
  pose proof (pop_while_shifted k st1 st2 i Hk Hi Hs) as Hp.
  destruct Hp as [|[n1 i1] [n2 i2] r1 r2 [Hn Hi'] Hrest]; [done|].
  simpl in Hn. subst n2. simpl. split; [done|].
  constructor; [|by constructor]. simpl. split; [done|]. right. done.
Qed.

Lemma attach_all_shifted k keys : forall h st1 st2,
  (0 <= k)%Z -> Forall (fun key => (0 <= key.1)%Z) keys -> shifted k st1 st2 ->
  agree k (attach_all keys (h, st1))
          (attach_all (map (fun key => (key.1 + k, key.2)%Z) keys) (h, st2)).
Proof.
  induction keys as [|key keys IH]; intros h st1 st2 Hk Hkeys Hs; [done|].
  apply Forall_cons in Hkeys as [Hkey Hkeys].
  pose proof (attach_shifted k key h st1 st2 Hk Hkey Hs) as Ha.
  change (agree k (rbind (attach key (h, st1)) (attach_all keys))
            (rbind (attach ((key.1 + k)%Z, key.2) (h, st2))
               (attach_all (map (fun key => (key.1 + k, key.2)%Z) keys)))).
  destruct (attach key (h, st1)) as [e1|[h1 s1]],
           (attach ((key.1 + k)%Z, key.2) (h, st2)) as [e2|[h2 s2]]; try done.
  destruct Ha as [<- Hs']. by apply IH.
Qed.

(** X5.  Only the indentation of the lines relative to each other
    matters: a file whose every line has the same number of further
    spaces in front gives the same tree. *)
Theorem parse_org_file_indent_by (fs1 fs2 : gmap string string) f1 f2 text1 text2 k :
  fs1 !! f1 = Some text1 ->
  fs2 !! f2 = Some text2 ->
  file_lines text2 = map (indent_by k) (file_lines text1) ->
  parse_org_file fs1 f1 = parse_org_file fs2 f2.
Proof.
  intros H1 H2 Hl. unfold parse_org_file. cbn [OrgNode_new]. rewrite H1, H2.
  fold (file_lines text1) (file_lines text2).
  rewrite !parse_lines_attach, Hl, keys_of_indent_by.
  pose proof (attach_all_shifted (Z.of_nat k) (keys_of (file_lines text1))
                ([] ++ [mkOrgNode (strip "Root") [] None])
                [(0, (-1)%Z)] [(0, (-1)%Z)] ltac:(lia) (keys_of_nonneg _)) as Ha.
  simpl length.
  destruct (attach_all (keys_of (file_lines text1)) _) as [e1|[h1 s1]],
           (attach_all (map _ (keys_of (file_lines text1))) _) as [e2|[h2 s2]].
  - simpl. f_equal. apply Ha. constructor; [|by constructor]. simpl. split; [done|]. by left.
  - exfalso. apply Ha. constructor; [|by constructor]. simpl. split; [done|]. by left.
  - exfalso. apply Ha. constructor; [|by constructor]. simpl. split; [done|]. by left.
  - simpl. destruct Ha as [-> _]; [|done].
    constructor; [|by constructor]. simpl. split; [done|]. by left.
Qed.

Lemma parse_org_file_indent_by_witness :
  parse_org_file {[ "a.txt" := two_entries ]} "a.txt"
  = parse_org_file
      {[ "b.txt" := "   A" +:+ String LF ("    B" +:+ String LF
                    ("   C" +:+ String LF ("    D" +:+ String LF ""))) ]} "b.txt".
Proof.
  apply (parse_org_file_indent_by _ _ _ _ two_entries
           ("   A" +:+ String LF ("    B" +:+ String LF
            ("   C" +:+ String LF ("    D" +:+ String LF "")))) 3); reflexivity.
Defined.

(** ** The parent is the last earlier line with a smaller indent *)

Lemma gaps_app inds more st : forall b ib,
  b < length inds -> gaps inds b ib st -> gaps (inds ++ more) b ib st.
Proof.
  induction st as [|[a ia] st IH]; intros b ib Hb; [done|].
  simpl. intros (Hab & Ha & Hgap & Hrest). split; [done|].
  split; [by apply lookup_app_l_Some|]. split.
  - intros j ij Hj Hij. rewrite lookup_app_l in Hij by lia. by apply (Hgap j).
  - apply IH; [lia|done].
Qed.

Lemma pop_while_gaps inds k i rest : forall t it,
  inds !! t = Some it -> t < k -> gaps inds t it rest ->
  (forall j ij, t < j < k -> inds !! j = Some ij -> (i <= ij)%Z) ->
  match pop_while ((t, it) :: rest) i with
  | [] => True
  | (p, ip) :: rest' =>
      (ip < i)%Z /\ p < k /\ inds !! p = Some ip /\ gaps inds p ip rest'
      /\ forall j ij, p < j < k -> inds !! j = Some ij -> (i <= ij)%Z
  end.
Proof.
  induction rest as [|[a ia] rest IH]; intros t it Ht Htk Hg Hk; rewrite pop_while_cons.
  - destruct (Z.leb_spec i it); [done|]. done.
  - destruct (Z.leb_spec i it) as [Hle|Hlt]; [|done].
    destruct Hg as (Hat & Ha & Hgap & Hrest).
    apply IH; [done|lia|done|].
    intros j ij Hj Hij. destruct (decide (j < t)) as [?|?].
    + specialize (Hgap j ij ltac:(lia) Hij). lia.
    + destruct (decide (j = t)) as [->|?]; [|apply (Hk j); [lia|done]].
      rewrite Ht in Hij. injection Hij as <-. done.
Qed.

Lemma parse_line_nearest line h st inds h' st' :
  nearest h st inds ->
  parse_line line (h, st) = inr (h', st') ->
  nearest h' st' (if is_blank line then inds else inds ++ [count_leading_spaces line]).
Proof.
  intros (Hlen & (it & rest & -> & Hit & Hg) & Hpar) E. unfold parse_line in E.
  destruct (is_blank line).
  { injection E as <- <-. split; [done|]. split; [|done]. by exists it, rest. }
  unfold OrgNode_new in E. set (i := count_leading_spaces line) in *.
  assert (Hpos : 0 < length h). { apply lookup_lt_Some in Hit. lia. }
  pose proof (pop_while_gaps inds (length h) i rest (length h - 1) it Hit ltac:(lia) Hg
                ltac:(intros; lia)) as Hpop.
  destruct (pop_while ((length h - 1, it) :: rest) i) as [|[p ip] rest'] eqn:Est; [done|].
  injection E as <- <-. destruct Hpop as (Hip & Hp & Hpi & Hg' & Hbetween).
  rewrite add_child_new by done.
  assert (Hlen' : length (alter (append_child (length h)) p h
                          ++ [mkOrgNode (strip (strip line)) [] (Some p)]) = S (length h)).
  { rewrite length_app, length_alter. simpl. lia. }
  split; [|split].
  - rewrite Hlen', length_app. simpl. lia.
  - rewrite Hlen'. replace (S (length h) - 1) with (length h) by lia.
    eexists i, _. split; [done|]. split.
    { rewrite <- Hlen, lookup_app_r by lia. by rewrite Nat.sub_diag. }
    simpl. split; [done|]. split; [by apply lookup_app_l_Some|]. split.
    + intros j ij Hj Hij. rewrite lookup_app_l in Hij by lia. by apply (Hbetween j).
    + apply gaps_app; [lia|done].
  - intros k nd q Hk Hq. destruct (decide (k < length h)) as [Hkl|Hkl].
    + rewrite lookup_app_l in Hk by (rewrite length_alter; lia).
      assert (exists nd0, h !! k = Some nd0 /\ parent nd = parent nd0) as (nd0 & Hk' & Epar).
      { rewrite list_lookup_alter in Hk. destruct (decide (p = k)) as [->|_].
        - apply fmap_Some in Hk as (nd0 & ? & ->). by exists nd0.
        - by exists nd. }
      rewrite Epar in Hq.
      destruct (Hpar k nd0 q Hk' Hq) as (Hqk & jq & jk & Hjq & Hjk & Hlt & Hbet).
      split; [done|]. exists jq, jk. split; [by apply lookup_app_l_Some|].
      split; [by apply lookup_app_l_Some|]. split; [done|].
      intros j ij Hj Hij. rewrite lookup_app_l in Hij by lia. by apply (Hbet j).
    + rewrite lookup_app_r in Hk by (rewrite length_alter; lia).
      rewrite length_alter in Hk.
      destruct (k - length h) as [|m] eqn:Ek; [|by destruct m].
      injection Hk as <-. assert (k = length h) as -> by lia.
      simpl in Hq. injection Hq as <-. split; [done|]. exists ip, i.
      split; [by apply lookup_app_l_Some|]. split.
      { rewrite <- Hlen, lookup_app_r by lia. by rewrite Nat.sub_diag. }
      split; [done|]. intros j ij Hj Hij. rewrite lookup_app_l in Hij by lia.
      by apply (Hbetween j).
Qed.

Lemma parse_lines_nearest lines : forall h st inds h' st',
  nearest h st inds ->
  parse_lines lines (h, st) = inr (h', st') ->
  nearest h' st'
    (inds ++ map count_leading_spaces (List.filter (fun l => negb (is_blank l)) lines)).
Proof.
  induction lines as [|line lines IH]; intros h st inds h' st' Hi E.
  { injection E as <- <-. simpl. by rewrite app_nil_r. }
  rewrite parse_lines_cons in E.
  destruct (parse_line line (h, st)) as [e|[h1 st1]] eqn:E1; [done|].
  pose proof (parse_line_nearest _ _ _ _ _ _ Hi E1) as Hi1.
  simpl in E. specialize (IH _ _ _ _ _ Hi1 E).
  simpl List.filter. destruct (is_blank line); simpl; [done|].
  by rewrite <- app_assoc in IH.
Qed.

(** X6.  The parent of a node is the last node made before it whose
    recorded indent is smaller: it was made earlier, its indent is
    smaller, and every node made between the two has an indent that is
    not smaller than the node's own. *)
Theorem parse_org_file_nearest (fs : gmap string string) filename text h root :
  fs !! filename = Some text ->
  parse_org_file fs filename = inr (h, root) ->
  forall k nd p, h !! k = Some nd -> parent nd = Some p ->
    p < k
    /\ exists ip ik,
         recorded_indents text !! p = Some ip
         /\ recorded_indents text !! k = Some ik
         /\ (ip < ik)%Z
         /\ forall j ij, p < j < k -> recorded_indents text !! j = Some ij -> (ik <= ij)%Z.
Proof.
  intros Hf E. unfold parse_org_file in E. cbn [OrgNode_new] in E. rewrite Hf in E.
  simpl length in E.
  destruct (parse_lines _ _) as [e|[h' st']] eqn:E1; [done|].
  injection E as <- <-.
  apply (parse_lines_nearest _ _ _ [(-1)%Z]) in E1 as (_ & _ & H); [exact H|].
  split; [done|]. split.
  - by exists (-1)%Z, [].
  - intros [|k] nd p Hk Hp; [by injection Hk as <-|by destruct k].
Qed.

Lemma parse_org_file_nearest_witness :
  1 < 4
  /\ exists ip ik,
       recorded_indents scenario_A !! 1 = Some ip
       /\ recorded_indents scenario_A !! 4 = Some ik
       /\ (ip < ik)%Z
       /\ forall j ij, 1 < j < 4 -> recorded_indents scenario_A !! j = Some ij ->
            (ik <= ij)%Z.
Proof.
  apply (fun H1 H2 H3 H4 =>
           parse_org_file_nearest {[ "org.txt" := scenario_A ]} "org.txt" scenario_A heap_A 0
             H1 H2 4 (mkOrgNode "VP Engineering" [5] (Some 1)) 1 H3 H4); reflexivity.
Defined.

(** ** Parents and children *)

Lemma kid_ids_seg h ks : forall j q c,
  segs h j q ks -> c ∈ kid_ids j ks -> exists k, seg h c q k /\ j <= c.
Proof.
  induction ks as [|k ks IH]; intros j q c Hs Hc; [by apply elem_of_nil in Hc|].
  apply segs_cons in Hs as [Hk Hs]. simpl in Hc. apply elem_of_cons in Hc as [->|Hc].
  - by exists k.
  - destruct (IH _ _ _ Hs Hc) as (k' & ? & ?). exists k'. split; [done|lia].
Qed.

Lemma kid_ids_lower ks : forall j c, c ∈ kid_ids j ks -> j <= c.
Proof.
  induction ks as [|k ks IH]; intros j c Hc; [by apply elem_of_nil in Hc|].
  simpl in Hc. apply elem_of_cons in Hc as [->|Hc]; [done|]. apply IH in Hc. lia.
Qed.

Lemma kid_ids_increasing ks : forall j i1 i2 c1 c2,
  kid_ids j ks !! i1 = Some c1 -> kid_ids j ks !! i2 = Some c2 -> i1 < i2 -> c1 < c2.
Proof.
  induction ks as [|k ks IH]; intros j i1 i2 c1 c2 H1 H2 Hlt; [done|].
  simpl in H1, H2. destruct i2 as [|i2]; [lia|]. simpl in H2.
  destruct i1 as [|i1].
  - injection H1 as <-. apply list_elem_of_lookup_2, kid_ids_lower in H2.
    pose proof (size_pos k). lia.
  - simpl in H1. apply (IH _ _ _ _ _ H1 H2). lia.
Qed.

Lemma seg_root h i par t :
  seg h i par t -> exists nd, h !! i = Some nd /\ parent nd = par /\ name nd = root_name t.
Proof. destruct t as [nm ks]. intros [Hi _]%seg_node. by eexists. Qed.

Lemma seg_linked h t : forall i par,
  seg h i par t ->
  forall n, i < n < i + size t ->
  exists p ndp nd,
    h !! p = Some ndp /\ n ∈ children ndp /\ h !! n = Some nd /\ parent nd = Some p.
Proof.
  induction t as [nm ks IH] using rose_ind'. intros i par Hseg n Hn.
  apply seg_node in Hseg as [Hi Hks]. rewrite size_unfold in Hn.
  assert (Hn' : S i <= n < S i + size_forest ks) by lia. clear Hn.
  set (ndp := mkOrgNode nm (kid_ids (S i) ks) par) in *.
  assert (Hin : forall c, c ∈ kid_ids (S i) ks -> c ∈ children ndp) by done.
  clearbody ndp. revert Hks Hn' Hin. generalize (S i) as j.
  induction IH as [|k ks' Hk _ IHks]; intros j Hks Hn Hin.
  { unfold size_forest in Hn. simpl in Hn. lia. }
  apply segs_cons in Hks as [Hk' Hks]. rewrite size_forest_cons in Hn.
  destruct (decide (n = j)) as [->|Hne].
  - destruct (seg_root _ _ _ _ Hk') as (nd & Hj & Hp & _).
    exists i, ndp, nd. split; [exact Hi|]. split; [|done].
    apply Hin. simpl. by left.
  - destruct (decide (n < j + size k)) as [Hlt|Hge].
    + apply (Hk j (Some i) Hk'). lia.
    + apply (IHks (j + size k) Hks); [lia|]. intros c Hc. apply Hin. simpl. by right.
Qed.

(** X7.  In a parsed tree the two directions of the links agree: a node
    with the parent [p] is among the children of [p], and a child of [p]
    has the parent [p].  The root has no parent. *)
Theorem parse_org_file_linked (fs : gmap string string) filename text h root :
  fs !! filename = Some text ->
  parse_org_file fs filename = inr (h, root) ->
  (parent <$> h !! root = Some None)
  /\ (forall c nd p, h !! c = Some nd -> parent nd = Some p ->
        exists ndp, h !! p = Some ndp /\ c ∈ children ndp)
  /\ (forall p ndp c, h !! p = Some ndp -> c ∈ children ndp ->
        exists nd, h !! c = Some nd /\ parent nd = Some p).
Proof.
  intros Hf E. rewrite (parse_org_file_tree _ _ _ Hf) in E. injection E as <- <-.
  pose proof (seg_whole None (parsed_tree text)) as Hseg.
  set (h := enc None 0 (parsed_tree text)) in *.
  destruct (seg_root _ _ _ _ Hseg) as (nd0 & H0 & Hp0 & _).
  split; [by rewrite H0; simpl; rewrite Hp0|]. split.
  - intros c nd p Hc Hp. destruct (decide (c = 0)) as [->|Hc0].
    { rewrite H0 in Hc. injection Hc as <-. congruence. }
    pose proof (lookup_lt_Some _ _ _ Hc) as Hlt. unfold h in Hlt. rewrite length_enc in Hlt.
    destruct (seg_linked _ _ _ _ Hseg c ltac:(lia)) as (p' & ndp & nd' & Hp' & Hin & Hc' & Hpar).
    rewrite Hc in Hc'. injection Hc' as <-. rewrite Hp in Hpar. injection Hpar as <-.
    by exists ndp.
  - intros p ndp c Hp Hc.
    pose proof (lookup_lt_Some _ _ _ Hp) as Hlt. unfold h in Hlt. rewrite length_enc in Hlt.
    destruct (seg_inside (fun _ => True) _ _ 0 None Hseg ltac:(by apply Forall_true)
                ltac:(done) p) as (par & [nm ks] & Hsp & _ & _); [lia|].
    apply seg_node in Hsp as [Hp' Hks]. rewrite Hp in Hp'. injection Hp' as ->.
    simpl in Hc. destruct (kid_ids_seg _ _ _ _ _ Hks Hc) as (k & Hk & _).
    destruct (seg_root _ _ _ _ Hk) as (nd & ? & ? & _). by exists nd.
Qed.

Lemma parse_org_file_linked_witness :
  (parent <$> heap_A !! 0 = Some None)
  /\ (forall c nd p, heap_A !! c = Some nd -> parent nd = Some p ->
        exists ndp, heap_A !! p = Some ndp /\ c ∈ children ndp)
  /\ (forall p ndp c, heap_A !! p = Some ndp -> c ∈ children ndp ->
        exists nd, heap_A !! c = Some nd /\ parent nd = Some p).
Proof.
  apply (parse_org_file_linked {[ "org.txt" := scenario_A ]} "org.txt" scenario_A heap_A 0);
    reflexivity.
Defined.

(** X8.  The children of a node are listed in the order in which their
    lines appear in the file: the references in a [children] list
    increase, and all of them are above the reference of the node
    itself.  No reference occurs twice in a list. *)
Theorem parse_org_file_children_order (fs : gmap string string) filename text h root :
  fs !! filename = Some text ->
  parse_org_file fs filename = inr (h, root) ->
  forall p ndp, h !! p = Some ndp ->
    (forall c, c ∈ children ndp -> p < c)
    /\ (forall i1 i2 c1 c2,
          children ndp !! i1 = Some c1 -> children ndp !! i2 = Some c2 ->
          i1 < i2 -> c1 < c2)
    /\ NoDup (children ndp).
Proof.
  intros Hf E p ndp Hp. rewrite (parse_org_file_tree _ _ _ Hf) in E. injection E as <- <-.
  pose proof (seg_whole None (parsed_tree text)) as Hseg.
  pose proof (lookup_lt_Some _ _ _ Hp) as Hlt. rewrite length_enc in Hlt.
  destruct (seg_inside (fun _ => True) _ _ 0 None Hseg ltac:(by apply Forall_true)
              ltac:(done) p) as (par & [nm ks] & Hsp & _ & _); [lia|].
  apply seg_node in Hsp as [Hp' Hks]. rewrite Hp in Hp'. injection Hp' as ->. simpl.
  split; [|split].
  - intros c Hc. apply kid_ids_lower in Hc. lia.
  - apply kid_ids_increasing.
  - apply NoDup_alt. intros i1 i2 c H1 H2.
    destruct (Nat.lt_total i1 i2) as [Hlt'|[?|Hlt']]; [|done|].
    + pose proof (kid_ids_increasing _ _ _ _ _ _ H1 H2 Hlt'). lia.
    + pose proof (kid_ids_increasing _ _ _ _ _ _ H2 H1 Hlt'). lia.
Qed.

Lemma parse_org_file_children_order_witness :
  (forall c, c ∈ [2; 4] -> 1 < c)
  /\ (forall i1 i2 c1 c2,
        [2; 4] !! i1 = Some c1 -> [2; 4] !! i2 = Some c2 -> i1 < i2 -> c1 < c2)
  /\ NoDup [2; 4].
Proof.
  apply (fun H1 H2 H3 =>
           parse_org_file_children_order
             {[ "org.txt" := scenario_A ]} "org.txt" scenario_A heap_A 0
             H1 H2 1 (mkOrgNode "CEO" [2; 4] (Some 0)) H3); reflexivity.
Defined.

(** ** Runs of the driver on a file with entries *)

Lemma bind_inr {A B} (m : M A) (k : A -> M B) w w' a :
  m w = (w', inr a) -> bind m k w = k a w'.
Proof. intros H. unfold bind. by rewrite H. Qed.

Lemma print_mermaid_flowchart_seg h ndr c k fuel w :
  h !! 0 = Some ndr -> name ndr = "Root" ->
  (exists rest, children ndr = c :: rest) ->
  seg h c (Some 0) k -> depth k <= fuel -> 0 < c ->
  print_mermaid_flowchart fuel h 0 w
  = (emit w (mermaid_block h c (seq c (size k))), inr tt).
Proof.
  intros H0 Hname [rest Hch] Hseg Hd Hc.
  unfold print_mermaid_flowchart.
  rewrite (bind_inr _ _ w w ndr) by (unfold lift, deref; by rewrite H0).
  rewrite Hname, Hch.
  change (String.eqb "Root" "Root" && negb (bool_decide (c :: rest = []))) with true.
  cbv iota.
  rewrite (bind_inr _ _ _ _ tt (print_emit _ _)).
  rewrite (bind_inr _ _ _ _ tt (print_emit _ _)).
  rewrite (bind_inr _ _ _ _ c) by done.
  rewrite (bind_inr _ _ _ _ _
             (print_mermaid_nodes_seg h c k fuel c (Some 0) _ None None Hseg Hd
                ltac:(lia) eq_refl ltac:(by rewrite decide_True))).
  rewrite print_emit, !emit_emit. done.
Qed.

Lemma seg_names_not_Root text n par t :
  (forall line, line ∈ nonblank_lines text -> strip line <> "Root") ->
  0 < n -> seg (enc None 0 (parsed_tree text)) n par t -> "Root" ∉ names t.
Proof.
  intros Hroot Hn Hseg Hin.
  destruct (seg_names_lookup _ _ _ _ _ Hseg Hin) as (j & nd & Hj & Hnd & Hname).
  destruct (parsed_heap_names _ _ _ Hnd) as [[-> _]|(k & line & -> & Hk & Hl)]; [lia|].
  apply (Hroot line); [by apply list_elem_of_lookup_2 in Hk|congruence].
Qed.

Lemma generate_svg_chart_seg h n par t fuel w :
  "Root" ∉ names t -> seg h n par t -> depth t <= fuel ->
  generate_svg_chart fuel h n None w
  = (mkWorld (stdout w) (stderr w)
       (rendered w ++ [("org_chart.svg", graph_of (names t) (edges_of t))]),
     inr "org_chart.svg").
Proof.
  intros Hnr Hseg Hd. unfold generate_svg_chart, bind at 1, lift at 1.
  destruct (add_nodes_seg h t Hnr fuel n par None [] (mkDigraph [] []) Hseg Hd
              enumerates_empty) as (ids' & -> & _).
  done.
Qed.

(** X9.  On a file with entries, a run with one of the formats [tree],
    [visio] and [mermaid] writes the output of that renderer for the
    first top-level entry to standard output and returns normally;
    nothing goes to standard error and nothing is rendered. *)
Theorem main_one_format (fs : gmap string string) fuel filename text h root c w :
  fs !! filename = Some text ->
  parse_org_file fs filename = inr (h, root) ->
  first_child h root = inr c ->
  length h <= fuel ->
  exists t ids,
    subtree (length h) h c = Some t
    /\ preorder (length h) h c = Some ids
    /\ main fs fuel (Some filename) (Some Tree) w = (emit w (listing 0 t), inr tt)
    /\ main fs fuel (Some filename) (Some Visio) w
       = (emit w (omap (report_line h) ids), inr tt)
    /\ main fs fuel (Some filename) (Some Mermaid) w
       = (emit w (mermaid_block h c ids), inr tt).
Proof.
  intros Hf E Hc Hfuel. pose proof E as E'.
  rewrite (parse_org_file_tree _ _ _ Hf) in E'. injection E' as <- <-.
  destruct (first_child_parsed _ _ Hc) as (-> & k & ks & Et & Hseg).
  pose proof (seg_size _ _ _ _ Hseg) as Hsz. pose proof (depth_le_size k) as Hd.
  pose proof (seg_whole None (parsed_tree text)) as Hroot. rewrite Et in Hroot at 2.
  apply seg_node in Hroot as [H0 _].
  set (h := enc None 0 (parsed_tree text)) in *.
  exists k, (seq 1 (size k)).
  split; [apply (subtree_seg _ _ _ _ (Some 0) Hseg); lia|].
  split; [apply (preorder_seg _ _ _ _ (Some 0) Hseg); lia|].
  unfold main, try_except_FileNotFoundError.
  rewrite !(bind_inr _ _ w w (h, 0)) by (unfold lift; by rewrite E).
  split; [|split].
  - rewrite (bind_inr _ _ w w 1) by (unfold lift; by rewrite Hc).
    by rewrite (print_org_chart_seg _ _ _ _ (Some 0) _ _ Hseg) by lia.
  - rewrite (bind_inr _ _ w w 1) by (unfold lift; by rewrite Hc).
    rewrite (print_reporting_relationships_seg _ _ _ _ (Some 0) _ Hseg); [done|lia|].
    intros p [= <-]. by rewrite H0.
  - rewrite (print_mermaid_flowchart_seg h _ 1 k fuel w H0 eq_refl ltac:(by eexists) Hseg);
      [done|lia|lia].
Qed.

Lemma main_one_format_witness :
  exists t ids,
    subtree (length heap_A) heap_A 1 = Some t
    /\ preorder (length heap_A) heap_A 1 = Some ids
    /\ main {[ "org.txt" := scenario_A ]} 10 (Some "org.txt") (Some Tree) w0
       = (emit w0 (listing 0 t), inr tt)
    /\ main {[ "org.txt" := scenario_A ]} 10 (Some "org.txt") (Some Visio) w0
       = (emit w0 (omap (report_line heap_A) ids), inr tt)
    /\ main {[ "org.txt" := scenario_A ]} 10 (Some "org.txt") (Some Mermaid) w0
       = (emit w0 (mermaid_block heap_A 1 ids), inr tt).
Proof.
  apply (main_one_format {[ "org.txt" := scenario_A ]} 10 "org.txt" scenario_A heap_A 0 1 w0).
  - reflexivity.
  - reflexivity.
  - reflexivity.
  - simpl. lia.
Defined.

(** X10.  On a file with entries, none named "Root", a run without a
    format writes to standard output the listing, the reporting
    relationships and the Mermaid block of the first top-level entry, in
    this order, writes the four headers and the name of the image file to
    standard error, renders one graph, and returns normally.  A run with
    the [svg] format renders the same graph and writes only the name of
    the image file, to standard output. *)
Theorem main_all_formats (fs : gmap string string) fuel filename text h root c w :
  fs !! filename = Some text ->
  parse_org_file fs filename = inr (h, root) ->
  first_child h root = inr c ->
  (forall line, line ∈ nonblank_lines text -> strip line <> "Root") ->
  length h <= fuel ->
  exists t ids,
    subtree (length h) h c = Some t
    /\ preorder (length h) h c = Some ids
    /\ main fs fuel (Some filename) None w
       = (mkWorld
            (stdout w ++ listing 0 t ++ omap (report_line h) ids ++ mermaid_block h c ids)
            (stderr w ++ headers)
            (rendered w ++ [("org_chart.svg", graph_of (names t) (edges_of t))]),
          inr tt)
    /\ main fs fuel (Some filename) (Some Svg) w
       = (mkWorld
            (stdout w ++ ["SVG file generated: org_chart.svg"])
            (stderr w)
            (rendered w ++ [("org_chart.svg", graph_of (names t) (edges_of t))]),
          inr tt).
Proof.
  intros Hf E Hc Hnames Hfuel. pose proof E as E'.
  rewrite (parse_org_file_tree _ _ _ Hf) in E'. injection E' as <- <-.
  destruct (first_child_parsed _ _ Hc) as (-> & k & ks & Et & Hseg).
  pose proof (seg_size _ _ _ _ Hseg) as Hsz. pose proof (depth_le_size k) as Hd.
  pose proof (seg_whole None (parsed_tree text)) as Hroot. rewrite Et in Hroot at 2.
  apply seg_node in Hroot as [H0 _].
  pose proof (seg_names_not_Root text 1 _ _ Hnames ltac:(lia) Hseg) as Hnr.
  set (h := enc None 0 (parsed_tree text)) in *.
  exists k, (seq 1 (size k)).
  split; [apply (subtree_seg _ _ _ _ (Some 0) Hseg); lia|].
  split; [apply (preorder_seg _ _ _ _ (Some 0) Hseg); lia|].
  assert (Hpar : forall p, Some 0 = Some p -> is_Some (h !! p)).
  { intros p [= <-]. by rewrite H0. }
  unfold main, try_except_FileNotFoundError.
  rewrite !(bind_inr _ _ w w (h, 0)) by (unfold lift; by rewrite E).
  split.
  - rewrite (bind_inr _ _ _ _ tt) by reflexivity.
    rewrite (bind_inr _ _ _ _ 1) by (unfold lift; by rewrite Hc).
    rewrite (bind_inr _ _ _ _ tt
               (print_org_chart_seg h k fuel 1 (Some 0) 0 _ Hseg ltac:(lia))).
    rewrite (bind_inr _ _ _ _ tt) by reflexivity.
    rewrite (bind_inr _ _ _ _ 1) by (unfold lift; by rewrite Hc).
    rewrite (bind_inr _ _ _ _ tt
               (print_reporting_relationships_seg h k fuel 1 (Some 0) _ Hseg ltac:(lia) Hpar)).
    rewrite (bind_inr _ _ _ _ tt) by reflexivity.
    rewrite (bind_inr _ _ _ _ tt
               (print_mermaid_flowchart_seg h _ 1 k fuel _ H0 eq_refl ltac:(by eexists) Hseg
                  ltac:(lia) ltac:(lia))).
    rewrite (bind_inr _ _ _ _ tt) by reflexivity.
    rewrite (bind_inr _ _ _ _ 1) by (unfold lift; by rewrite Hc).
    rewrite (bind_inr _ _ _ _ _
               (generate_svg_chart_seg h 1 (Some 0) k fuel _ Hnr Hseg ltac:(lia))).
    unfold eprint, emit, headers. simpl. rewrite <- !app_assoc. done.
  - rewrite (bind_inr _ _ _ _ 1) by (unfold lift; by rewrite Hc).
    rewrite (bind_inr _ _ _ _ _
               (generate_svg_chart_seg h 1 (Some 0) k fuel _ Hnr Hseg ltac:(lia))).
    done.
Qed.

Lemma main_all_formats_witness :
  exists t ids,
    subtree (length heap_C) heap_C 1 = Some t
    /\ preorder (length heap_C) heap_C 1 = Some ids
    /\ main {[ "org.txt" := scenario_C ]} 10 (Some "org.txt") None w0
       = (mkWorld
            (stdout w0 ++ listing 0 t ++ omap (report_line heap_C) ids
             ++ mermaid_block heap_C 1 ids)
            (stderr w0 ++ headers)
            (rendered w0 ++ [("org_chart.svg", graph_of (names t) (edges_of t))]),
          inr tt)
    /\ main {[ "org.txt" := scenario_C ]} 10 (Some "org.txt") (Some Svg) w0
       = (mkWorld
            (stdout w0 ++ ["SVG file generated: org_chart.svg"])
            (stderr w0)
            (rendered w0 ++ [("org_chart.svg", graph_of (names t) (edges_of t))]),
          inr tt).
Proof.
  apply (main_all_formats {[ "org.txt" := scenario_C ]} 10 "org.txt" scenario_C heap_C 0 1 w0).
  - reflexivity.
  - reflexivity.
  - reflexivity.
  - apply Forall_forall. apply (bool_decide_unpack _). vm_compute. exact I.
  - simpl. lia.
Defined.

(** ** The image renderer on the root *)

Lemma add_nodes_forest h fuel ks :
  "Root" ∉ concat (map names ks) ->
  forall j q ids_c l_c dot_c,
    segs h j q ks -> depth_forest ks <= fuel -> enumerates ids_c l_c ->
    exists ids',
      fold_result (kid_ids j ks) (ids_c, dot_c)
        (fun child s => add_nodes fuel h child (Some (fst s)) (snd s))
      = inr (ids',
             mkDigraph
               (node_stmts dot_c
                ++ vertex_stmts (foldl note l_c (concat (map names ks)))
                     (concat (map names ks)))
               (edge_stmts dot_c
                ++ edge_pairs (foldl note l_c (concat (map names ks)))
                     (concat (map edges_of ks))))
      /\ enumerates ids' (foldl note l_c (concat (map names ks))).
Proof.
  induction ks as [|k ks IH]; intros Hroot j q ids_c l_c dot_c Hks Hd Hen.
  { exists ids_c. simpl. rewrite !app_nil_r. by destruct dot_c. }
  apply segs_cons in Hks as [Hk Hks]. rewrite depth_forest_cons in Hd.
  simpl in Hroot. apply not_elem_of_app in Hroot as [Hrk Hroot].
  simpl fold_result. unfold rbind at 1. cbn [fst snd].
  destruct (add_nodes_seg h k Hrk fuel j q (Some ids_c) l_c dot_c Hk ltac:(lia) Hen)
    as (ids3 & -> & Hen3).
  set (l3 := foldl note l_c (names k)) in *.
  destruct (IH Hroot (j + size k) q ids3 l3
              (mkDigraph (node_stmts dot_c ++ vertex_stmts l3 (names k))
                         (edge_stmts dot_c ++ edge_pairs l3 (edges_of k)))
              Hks ltac:(lia) Hen3) as (ids' & -> & Hen').
  exists ids'. simpl map. simpl concat. rewrite !foldl_app. fold l3.
  set (l' := foldl note l3 (concat (map names ks))) in *.
  assert (Hp' : l3 `prefix_of` l') by apply foldl_note_prefix.
  split; [|done]. f_equal. f_equal. cbn [node_stmts edge_stmts]. f_equal.
  - rewrite vertex_stmts_app, <- app_assoc. f_equal. f_equal.
    apply vertex_stmts_prefix; [done|]. intros x Hx. by apply foldl_note_elem.
  - rewrite edge_pairs_app, <- app_assoc. f_equal. f_equal.
    apply edge_pairs_prefix; [done|]. intros a b Hab.
    apply edges_of_names in Hab as [? ?]. split; by apply foldl_note_elem.
Qed.

(** X11.  Given the root of a parsed tree none of whose entries is named
    "Root", as its docstring asks, the image renderer covers the whole
    tree: every distinct name under the root has one vertex, different
    names have different vertices, every entry has a node statement and
    every parent and child among the entries an edge.  The root itself
    has no vertex and no edges to the top-level entries. *)
Theorem svg_chart_whole_tree (fs : gmap string string) filename text h root :
  fs !! filename = Some text ->
  parse_org_file fs filename = inr (h, root) ->
  (forall line, line ∈ nonblank_lines text -> strip line <> "Root") ->
  exists ks,
    subtree (length h) h root = Some (Node "Root" ks)
    /\ concat (map names ks) = map strip (nonblank_lines text)
    /\ (forall a b, a ∈ concat (map names ks) -> b ∈ concat (map names ks) ->
          vertex_id (first_seen (concat (map names ks))) a
          = vertex_id (first_seen (concat (map names ks))) b -> a = b)
    /\ forall fuel w, length h <= fuel ->
         generate_svg_chart fuel h root None w
         = (mkWorld (stdout w) (stderr w)
              (rendered w ++
               [("org_chart.svg",
                 graph_of (concat (map names ks)) (concat (map edges_of ks)))]),
            inr "org_chart.svg").
Proof.
  intros Hf E Hnames. rewrite (parse_org_file_tree _ _ _ Hf) in E. injection E as <- <-.
  destruct (parsed_tree_root text) as (ks & Et & _).
  pose proof (parsed_tree_names text) as Hn. rewrite Et in Hn. simpl in Hn.
  injection Hn as Hn.
  pose proof (seg_whole None (parsed_tree text)) as Hseg.
  pose proof (depth_le_size (parsed_tree text)) as Hd.
  set (h := enc None 0 (parsed_tree text)) in *.
  assert (Hlen : length h = size (parsed_tree text)) by apply length_enc.
  exists ks. split; [|split; [done|split]].
  - rewrite <- Et. apply (subtree_seg _ _ _ _ None Hseg). lia.
  - intros a b Ha Hb. apply vertex_id_inj; by apply foldl_note_elem.
  - intros fuel w Hfuel. rewrite Et in Hseg, Hd, Hlen. rewrite depth_unfold in Hd.
    apply seg_node in Hseg as [H0 Hks].
    destruct fuel as [|fuel]; [lia|].
    unfold generate_svg_chart, bind at 1, lift at 1.
    simpl add_nodes. unfold rbind at 1, deref at 1. rewrite H0. cbn [name children].
    change (String.eqb "Root" "Root") with true. cbv iota.
    destruct (add_nodes_forest h fuel ks) with (j := 1) (q := Some 0)
      (ids_c := (∅ : gmap string string)) (l_c := @nil string) (dot_c := mkDigraph [] [])
      as (ids' & -> & _); [|done|lia|apply enumerates_empty|done].
    rewrite Hn. intros (line & Hl & Hin)%list_elem_of_fmap. by apply (Hnames line).
Qed.

Lemma svg_chart_whole_tree_witness :
  exists ks,
    subtree (length heap_two) heap_two 0 = Some (Node "Root" ks)
    /\ concat (map names ks) = map strip (nonblank_lines two_entries)
    /\ (forall a b, a ∈ concat (map names ks) -> b ∈ concat (map names ks) ->
          vertex_id (first_seen (concat (map names ks))) a
          = vertex_id (first_seen (concat (map names ks))) b -> a = b)
    /\ forall fuel w, length heap_two <= fuel ->
         generate_svg_chart fuel heap_two 0 None w
         = (mkWorld (stdout w) (stderr w)
              (rendered w ++
               [("org_chart.svg",
                 graph_of (concat (map names ks)) (concat (map edges_of ks)))]),
            inr "org_chart.svg").
Proof.
  apply (svg_chart_whole_tree {[ "org.txt" := two_entries ]} "org.txt" two_entries heap_two 0).
  - reflexivity.
  - reflexivity.
  - apply Forall_forall. apply (bool_decide_unpack _). vm_compute. exact I.
Defined.

(** ** The Mermaid walk from any node *)

Lemma mermaid_id_inj j1 j2 : mermaid_id j1 = mermaid_id j2 -> j1 = j2.
Proof.
  unfold mermaid_id. intros E. apply (inj (String.append "n")) in E.
  by apply (inj pretty) in E.
Qed.

(** X12.  Called on a node of a parsed tree without a counter,
    [_print_mermaid_nodes] declares the nodes of the subtree in pre-order
    under the identifiers n0, n1, ..., prints an edge line for each of
    them but the first, and leaves in the counter the number of nodes it
    declared.  Different counts give different identifiers, so no two
    nodes share one. *)
Theorem print_mermaid_nodes_subtree (fs : gmap string string) filename text h root n :
  fs !! filename = Some text ->
  parse_org_file fs filename = inr (h, root) ->
  n < length h ->
  exists m,
    preorder (length h) h n = Some (seq n m)
    /\ (forall fuel w, length h <= fuel ->
          _print_mermaid_nodes fuel h n None None w
          = (emit w (flat_map (mermaid_lines h n) (seq n m)), inr m))
    /\ forall j1 j2, j1 < m -> j2 < m -> mermaid_id j1 = mermaid_id j2 -> j1 = j2.
Proof.
  intros Hf E Hn. rewrite (parse_org_file_tree _ _ _ Hf) in E. injection E as <- <-.
  rewrite length_enc in Hn.
  destruct (seg_inside (fun _ => True) _ _ 0 None (seg_whole None (parsed_tree text))
              ltac:(by apply Forall_true) ltac:(done) n) as (par & t & Hseg & _ & _); [lia|].
  pose proof (seg_size _ _ _ _ Hseg) as Hsz. pose proof (depth_le_size t) as Hd.
  exists (size t). split; [|split].
  - apply (preorder_seg _ _ _ _ par Hseg). lia.
  - intros fuel w Hfuel.
    rewrite (print_mermaid_nodes_seg _ n t fuel n par w None None Hseg);
      [by rewrite Nat.sub_diag|lia|lia|done|by rewrite decide_True].
  - intros j1 j2 _ _. apply mermaid_id_inj.
Qed.

Lemma print_mermaid_nodes_subtree_witness :
  exists m,
    preorder (length heap_A) heap_A 2 = Some (seq 2 m)
    /\ (forall fuel w, length heap_A <= fuel ->
          _print_mermaid_nodes fuel heap_A 2 None None w
          = (emit w (flat_map (mermaid_lines heap_A 2) (seq 2 m)), inr m))
    /\ forall j1 j2, j1 < m -> j2 < m -> mermaid_id j1 = mermaid_id j2 -> j1 = j2.
Proof.
  apply (print_mermaid_nodes_subtree
           {[ "org.txt" := scenario_A ]} "org.txt" scenario_A heap_A 0 2).
  - reflexivity.
  - reflexivity.
  - simpl. lia.
Defined.

(** ** The lines of the listing *)

Lemma strip_listed level nm :
  clean nm -> strip (repeat_str "  " level +:+ "- " +:+ nm) = dashed nm.
Proof.
  intros Hnm. unfold strip, dashed. rewrite lstrip_indent.
  rewrite !sapp_cons, sapp_nil. simpl. rewrite (rstrip_clean nm Hnm).
  destruct Hnm as (_ & Hne & _). by destruct nm.
Qed.

Lemma listing_names t : forall level,
  Forall2 (fun line nm => exists d, level <= d /\ line = repeat_str "  " d +:+ "- " +:+ nm)
          (listing level t) (names t).
Proof.
  induction t as [nm ks IH] using rose_ind'. intros level.
  rewrite listing_unfold, names_unfold. constructor; [by exists level|].
  induction IH as [|k ks Hk _ IHks]; [by constructor|].
  simpl. apply Forall2_app; [|done].
  eapply Forall2_impl; [apply (Hk (S level))|].
  intros line nm' (d & Hd & ->). exists d. split; [lia|done].
Qed.

Lemma seg_names_at h i par t k nm :
  seg h i par t -> names t !! k = Some nm ->
  exists nd, h !! (i + k) = Some nd /\ name nd = nm.
Proof.
  intros (pre & post & -> & <-) Hk. rewrite <- (names_enc t par (length pre)) in Hk.
  change (map name ?l) with (name <$> l) in Hk. rewrite list_lookup_fmap in Hk.
  apply fmap_Some in Hk as (nd & Hnd & ->). exists nd. split; [|done].
  rewrite lookup_app_r by lia. replace (length pre + k - length pre) with k by lia.
  by apply lookup_app_l_Some.
Qed.

(** X13.  The listing of a node of a parsed tree has one line for each
    node of the subtree, in pre-order; the line of a node is some number
    of pairs of spaces, a dash, a space and the name of the node, and
    stripping the line gives back the dash, the space and the name. *)
Theorem print_org_chart_lines (fs : gmap string string) filename text h root n :
  fs !! filename = Some text ->
  parse_org_file fs filename = inr (h, root) ->
  n < length h ->
  exists ids out,
    preorder (length h) h n = Some ids
    /\ (forall fuel w, length h <= fuel ->
          print_org_chart fuel h n 0 w = (emit w out, inr tt))
    /\ length out = length ids
    /\ forall k line m nd,
         out !! k = Some line -> ids !! k = Some m -> h !! m = Some nd ->
         (exists d, line = repeat_str "  " d +:+ "- " +:+ name nd)
         /\ strip line = "- " +:+ name nd.
Proof.
  intros Hf E Hn. rewrite (parse_org_file_tree _ _ _ Hf) in E. injection E as <- <-.
  rewrite length_enc in Hn.
  destruct (seg_inside clean _ _ 0 None (seg_whole None (parsed_tree text))
              (parsed_tree_clean text) ltac:(done) n) as (par & t & Hseg & Hcl & _); [lia|].
  pose proof (seg_size _ _ _ _ Hseg) as Hsz. pose proof (depth_le_size t) as Hd.
  pose proof (listing_names t 0) as Hl.
  exists (seq n (size t)), (listing 0 t). split; [|split; [|split]].
  - apply (preorder_seg _ _ _ _ par Hseg). lia.
  - intros fuel w Hfuel. apply (print_org_chart_seg _ _ _ _ par); [done|lia].
  - rewrite (Forall2_length _ _ _ Hl), length_names, length_seq. done.
  - intros k line m nd Hk Hm Hnd.
    destruct (Forall2_lookup_l _ _ _ _ _ Hl Hk) as (nm & Hnm & d & _ & ->).
    apply lookup_seq in Hm as [-> _].
    destruct (seg_names_at _ _ _ _ _ _ Hseg Hnm) as (nd' & Hnd' & <-).
    rewrite Hnd in Hnd'. injection Hnd' as <-.
    split; [by exists d|]. apply strip_listed.
    rewrite Forall_forall in Hcl. apply Hcl. by apply list_elem_of_lookup_2 in Hnm.
Qed.

Lemma print_org_chart_lines_witness :
  exists ids out,
    preorder (length heap_A) heap_A 1 = Some ids
    /\ (forall fuel w, length heap_A <= fuel ->
          print_org_chart fuel heap_A 1 0 w = (emit w out, inr tt))
    /\ length out = length ids
    /\ forall k line m nd,
         out !! k = Some line -> ids !! k = Some m -> heap_A !! m = Some nd ->
         (exists d, line = repeat_str "  " d +:+ "- " +:+ name nd)
         /\ strip line = "- " +:+ name nd.
Proof.
  apply (print_org_chart_lines {[ "org.txt" := scenario_A ]} "org.txt" scenario_A heap_A 0 1).
  - reflexivity.
  - reflexivity.
  - simpl. lia.
Defined.

(** ** The parser only adds *)

Lemma grows_refl h : grows h h.
Proof. split; [done|]. intros k nd Hk. by exists nd. Qed.

Lemma grows_trans h1 h2 h3 : grows h1 h2 -> grows h2 h3 -> grows h1 h3.
Proof.
  intros [Hl1 H1] [Hl2 H2]. split; [lia|]. intros k nd Hk.
  destruct (H1 k nd Hk) as (nd2 & Hk2 & Hn2 & Hp2 & Hc2).
  destruct (H2 k nd2 Hk2) as (nd3 & Hk3 & Hn3 & Hp3 & Hc3).
  exists nd3. split; [done|]. split; [congruence|]. split; [congruence|]. by etrans.
Qed.

Lemma parse_line_grows line h st h' st' :
  parse_line line (h, st) = inr (h', st') -> grows h h'.
Proof.
  unfold parse_line. destruct (is_blank line).
  { intros [= <- <-]. apply grows_refl. }
  unfold OrgNode_new. destruct (pop_while st _) as [|[par ip] rest]; [done|].
  intros [= <- <-]. unfold add_child. split.
  - rewrite !length_alter, length_app. lia.
  - intros k nd Hk. pose proof (lookup_lt_Some _ _ _ Hk) as Hlt.
    rewrite list_lookup_alter_ne by lia. rewrite list_lookup_alter.
    destruct (decide (par = k)) as [->|_].
    + rewrite lookup_app_l by done. rewrite Hk. simpl. eexists. split; [done|].
      simpl. repeat split. by apply prefix_app_r.
    + rewrite lookup_app_l by done. by exists nd.
Qed.

(** X14.  The parsing loop only adds to the tree: whatever lines it
    reads, from whatever state, every node there was keeps its name and
    its parent, and its list of children is only extended at the end. *)
Theorem parse_lines_grows lines : forall h st h' st',
  parse_lines lines (h, st) = inr (h', st') -> grows h h'.
Proof.
  induction lines as [|line lines IH]; intros h st h' st' E.
  { injection E as <- <-. apply grows_refl. }
  rewrite parse_lines_cons in E.
  destruct (parse_line line (h, st)) as [e|[h1 st1]] eqn:E1; [done|].
  simpl in E. eapply grows_trans; [by eapply parse_line_grows|by eapply IH].
Qed.

Lemma parse_lines_grows_witness :
  grows [mkOrgNode "Root" [1] None; mkOrgNode "A" [] (Some 0)]
        [mkOrgNode "Root" [1; 3] None; mkOrgNode "A" [2] (Some 0);
         mkOrgNode "B" [] (Some 1); mkOrgNode "C" [] (Some 0)].
Proof.
  apply (parse_lines_grows ["  B"; "C"]
           [mkOrgNode "Root" [1] None; mkOrgNode "A" [] (Some 0)]
           [(1, 0%Z); (0, (-1)%Z)]
           [mkOrgNode "Root" [1; 3] None; mkOrgNode "A" [2] (Some 0);
            mkOrgNode "B" [] (Some 1); mkOrgNode "C" [] (Some 0)]
           [(3, 0%Z); (0, (-1)%Z)]).
  reflexivity.
Defined.

